(** * UTF-C: the Go encoder and decoder ([go/utfc.go])

    A shallow embedding of [Encode] and [Decode] and of the tables and range
    helpers they use, followed by the properties of the codec.

    Conventions of the embedding.
    - A Go [int] is a [Z]; every value the codec computes stays far below the
      64-bit limit, so no wrap-around is written for [int] itself.  The
      conversions [byte(x)] and [rune(x)] do truncate and are written out.
    - A byte buffer is a [list Z] of values in [0, 256).
    - The [string] argument of [Encode] is represented by the sequence of
      runes that [for _, ch := range str] yields; the [string] result of
      [Decode] by the sequence of runes it holds.
    - The loop of [Decode] reads [buf[i]], [buf[i+1]] and advances [i]; the
      pair (buf, i) is represented by the suffix [buf[i:]].  Reading past the
      end is Go's index-out-of-range run-time panic, the constructor
      [PanicIndexOutOfRange] of [result]. *)

From stdpp Require Import base numbers list option gmap.

Local Open Scope Z_scope.

(** ** Constants *)

Definition maxLatinCp : Z := 0x02FF.
Definition min21BitCp : Z := 0x2800.

Definition offsMask13Bit : Z := 0xFFFFFF80.
Definition offsMask21Bit : Z := 0xFFFF8000.

Definition markerAux : Z := 0xC0.   (* 0b11000000 *)
Definition marker13Bit : Z := 0x80. (* 0b10000000 *)
Definition marker21Bit : Z := 0xA0. (* 0b10100000 *)
Definition markerExtra : Z := 0xB0. (* 0b10110000 *)

Definition offsInitAux : Z := 0x00C0.

(** ** Tables *)

Definition auxOffset : gmap Z Z :=
  list_to_map
    [ (0x0080, offsInitAux); (0x0380, 0x0391); (0x0400, 0x0410);
      (0x0580, 0x05BE); (0x0530, 0x0531); (0x0600, 0x060B);
      (0x0900, 0x090D); (0x0980, 0x098F); (0x0A00, 0x0A02);
      (0x0A80, 0x0A8F); (0x0B00, 0x0B0F); (0x0B80, 0x0B8E);
      (0x0C80, 0x0C8E); (0x0D00, 0x0D0E); (0x0D80, 0x0D9B);
      (0x0E00, 0x0E01); (0x0E80, 0x0E81); (0x0F00, 0x0F40);
      (0x0F80, 0x0F90); (0x1080, 0x10B0); (0x3000, 0x3040) ].

(** A range is the pair (rng[0], rng[1]). *)
Definition rangeHK : Z * Z := (0x3000, 0x3100).

Definition rangesLatin : list (Z * Z) :=
  [ (0x41, 0x5B); (0x61, 0x7B); (0x30, 0x3A); (0x20, 0x21); (0x2D, 0x2C) ].

Definition rangesExtra : list (Z * Z) :=
  [ (0x2000, 0x2800); rangeHK; (0xFE00, 0xFE10);
    (0x1F170, 0x1F200); (0x1F300, 0x1F700); (0x1F900, 0x1FA00) ].

(** ** Range helpers *)

Fixpoint inRanges (cp : Z) (ranges : list (Z * Z)) : bool :=
  match ranges with
  | [] => false
  | rng :: ranges' =>
      if (rng.1 <=? cp) && (cp <? rng.2) then true else inRanges cp ranges'
  end.

(** [encodeRanges] with its accumulator [v] made an argument; the source
    starts it at 0. *)
Fixpoint encodeRanges_from (v cp : Z) (ranges : list (Z * Z)) : Z :=
  match ranges with
  | [] => -1
  | rng :: ranges' =>
      if (rng.1 <=? cp) && (cp <? rng.2) then v + (cp - rng.1)
      else encodeRanges_from (v + (rng.2 - rng.1)) cp ranges'
  end.

Definition encodeRanges (cp : Z) (ranges : list (Z * Z)) : Z :=
  encodeRanges_from 0 cp ranges.

Fixpoint decodeRanges (v : Z) (ranges : list (Z * Z)) : Z :=
  match ranges with
  | [] => -1
  | rng :: ranges' =>
      if v <? rng.2 - rng.1 then rng.1 + v
      else decodeRanges (v - (rng.2 - rng.1)) ranges'
  end.

Definition getAuxOffset (offs : Z) : Z :=
  match auxOffset !! offs with
  | Some remappedOffs => remappedOffs
  | None => offs
  end.

(** ** Conversions *)

(** [byte(x)]: the low eight bits. *)
Definition byte (x : Z) : Z := x `mod` 256.

(** [rune(x)]: truncation to a signed 32-bit integer. *)
Definition rune (x : Z) : Z := (x + 2 ^ 31) `mod` 2 ^ 32 - 2 ^ 31.

(** [string(r)] for a rune [r] holds one code point: [r] itself when it is a
    Unicode scalar value, U+FFFD otherwise. *)
Definition is_scalar (c : Z) : bool :=
  (0 <=? c) && (c <=? 0x10FFFF) && negb ((0xD800 <=? c) && (c <=? 0xDFFF)).

Definition string_of_rune (r : Z) : Z :=
  if is_scalar r then r else 0xFFFD.

(** ** Codec state *)

Record State : Type := mkState {
  offs : Z;
  auxOffs : Z;
  is21Bit : bool;
}.

Definition init : State :=
  {| offs := 0; auxOffs := offsInitAux; is21Bit := false |}.

(** ** Encode *)

(** One iteration of the loop of [Encode]: the bytes appended to [buf] and
    the state after the iteration. *)
Definition encode_step (st : State) (cp : Z) : list Z * State :=
  if (auxOffs st =? 0) && inRanges cp rangesLatin then
    ([byte (Z.lor markerAux (encodeRanges cp rangesLatin))], st)
  else if negb (auxOffs st =? 0) && (cp >=? auxOffs st)
          && (cp <=? auxOffs st + 0x3F) then
    ([byte (Z.lor markerAux (cp - auxOffs st))], st)
  else if inRanges cp rangesExtra then
    let newOffs := Z.land cp offsMask13Bit in
    if negb (is21Bit st) && (newOffs =? offs st) then
      ([byte (Z.land cp 0x7F)], st)
    else
      let extra := encodeRanges cp rangesExtra in
      ([byte (Z.lor markerExtra (1 + Z.shiftr extra 8)); byte extra],
       if (cp >=? rangeHK.1) && (cp <? rangeHK.2) then
         {| offs := newOffs; auxOffs := getAuxOffset (offs st);
            is21Bit := false |}
       else st)
  else if cp >=? min21BitCp then
    let cp := cp - min21BitCp in
    let newOffs := Z.land cp offsMask21Bit in
    if is21Bit st && (newOffs =? offs st) then
      ([byte (Z.land (Z.shiftr cp 8) 0x7F); byte cp], st)
    else
      ([byte (Z.lor marker21Bit (Z.shiftr cp 16)); byte (Z.shiftr cp 8);
        byte cp],
       {| offs := newOffs; auxOffs := offs st; is21Bit := true |})
  else
    let newOffs := Z.land cp offsMask13Bit in
    if negb (is21Bit st) && (newOffs =? offs st) then
      ([byte (Z.land cp 0x7F)], st)
    else
      ([byte (Z.lor marker13Bit (Z.shiftr cp 8)); byte (Z.land cp 0xFF)],
       {| offs := if cp <=? maxLatinCp then 0 else newOffs;
          auxOffs := getAuxOffset (offs st);
          is21Bit := false |}).

(** The loop of [Encode] entered in state [st]: the bytes appended. *)
Fixpoint encode_from (st : State) (str : list Z) : list Z :=
  match str with
  | [] => []
  | cp :: str' =>
      let '(out, st') := encode_step st cp in out ++ encode_from st' str'
  end.

(** The state in which the loop of [Encode] leaves, entered in [st]. *)
Fixpoint encode_state (st : State) (str : list Z) : State :=
  match str with
  | [] => st
  | cp :: str' => encode_state (encode_step st cp).2 str'
  end.

Definition Encode (str : list Z) : list Z := encode_from init str.

(** ** Decode *)

Inductive result (A : Type) : Type :=
  | Ok (a : A)
  | PanicIndexOutOfRange.
Arguments Ok {A} a.
Arguments PanicIndexOutOfRange {A}.

Definition result_map {A B} (f : A → B) (r : result A) : result B :=
  match r with
  | Ok a => Ok (f a)
  | PanicIndexOutOfRange => PanicIndexOutOfRange
  end.

(** One iteration of the loop of [Decode] on the leading byte [b = buf[i]]
    and the bytes [tl] after it.  [k cp st' rest] is what follows the
    branches, entered with the value of [cp] at [string(rune(cp))], the
    state the branch leaves and the bytes not yet read; [panic] is an index
    past the end of [buf]. *)
Definition decode_iter {R : Type} (st : State) (b : Z) (tl : list Z)
    (k : Z → State → list Z → R) (panic : R) : R :=
  if Z.land b markerAux =? markerAux then
    k (if auxOffs st =? 0 then decodeRanges (Z.lxor b markerAux) rangesLatin
       else auxOffs st + Z.lxor b markerAux)
      st tl
  else if Z.land b markerExtra =? markerExtra then
    match tl with
    | b2 :: tl2 =>
        let cp :=
          decodeRanges (Z.lor (Z.shiftl (Z.lxor b markerExtra) 8) b2)
                       rangesExtra in
        k cp
          (if (cp >=? rangeHK.1) && (cp <? rangeHK.2) then
             {| offs := Z.land cp offsMask13Bit;
                auxOffs := getAuxOffset (offs st); is21Bit := false |}
           else st)
          tl2
    | [] => panic
    end
  else if Z.land b marker21Bit =? marker21Bit then
    match tl with
    | b2 :: b3 :: tl3 =>
        let cp :=
          Z.lor (Z.lor (Z.shiftl (Z.lxor b marker21Bit) 16) (Z.shiftl b2 8))
                b3 in
        k (cp + min21BitCp)
          {| offs := Z.land cp offsMask21Bit; auxOffs := offs st;
             is21Bit := true |}
          tl3
    | _ => panic
    end
  else if Z.land b marker13Bit =? marker13Bit then
    match tl with
    | b2 :: tl2 =>
        let cp := Z.lor (Z.shiftl (Z.lxor b marker13Bit) 8) b2 in
        k cp
          {| offs := if cp <=? maxLatinCp then 0
                     else Z.land cp offsMask13Bit;
             auxOffs := getAuxOffset (offs st); is21Bit := false |}
          tl2
    | [] => panic
    end
  else if is21Bit st then
    match tl with
    | b2 :: tl2 =>
        k (min21BitCp + Z.lor (Z.lor (offs st) (Z.shiftl b 8)) b2) st tl2
    | [] => panic
    end
  else
    k (Z.lor (offs st) b) st tl.

(** One iteration on its own: the code point value, the new state and the
    bytes left. *)
Definition decode_step (st : State) (b : Z) (tl : list Z)
  : result (Z * State * list Z) :=
  decode_iter st b tl (λ cp st' rest, Ok (cp, st', rest))
              PanicIndexOutOfRange.

(** The loop of [Decode] entered in state [st]: the runes of the string the
    loop appends, or the panic. *)
Fixpoint decode_from (st : State) (buf : list Z) : result (list Z) :=
  match buf with
  | [] => Ok []
  | b :: tl =>
      decode_iter st b tl
        (λ cp st' rest,
           result_map (cons (string_of_rune (rune cp))) (decode_from st' rest))
        PanicIndexOutOfRange
  end.

Definition Decode (buf : list Z) : result (list Z) := decode_from init buf.

(** ** The vocabulary of the properties *)

(** The code points U+0000..U+007F. *)
Definition is_ascii (cp : Z) : Prop := 0 ≤ cp ≤ 0x7F.

(** The letters A-Z and a-z, the digits and the space. *)
Definition is_latin_remapped (cp : Z) : Prop :=
  0x41 ≤ cp ≤ 0x5A ∨ 0x61 ≤ cp ≤ 0x7A ∨ 0x30 ≤ cp ≤ 0x39 ∨ cp = 0x20.

#[local] Instance is_latin_remapped_dec cp : Decision (is_latin_remapped cp).
Proof. unfold is_latin_remapped. apply _. Defined.

(** What [offs] holds for a state [st'] left by a code point [cp]: the high
    bits of [cp - 0x2800] in 21-bit mode; in 13-bit mode the Latin window for
    a code point up to [maxLatinCp], the high bits of [cp] above it. *)
Definition window_of (st' : State) (cp : Z) : Prop :=
  offs st' =
    if is21Bit st' then Z.land (cp - min21BitCp) offsMask21Bit
    else if cp <=? maxLatinCp then 0
    else Z.land cp offsMask13Bit.

(** The continuation bytes that the variant of a leading byte requires:
    none after AUX (11xxxxxx), one after EXTRA (1011xxxx), two after SHIFT21
    (the other 101xxxxx), one after SHIFT13 (100xxxxx), and after BASE
    (0xxxxxxx) one in 21-bit mode and none otherwise. *)
Definition continuation_bytes (st : State) (b : Z) : nat :=
  if 0xC0 <=? b then 0
  else if 0xB0 <=? b then 1
  else if 0xA0 <=? b then 2
  else if 0x80 <=? b then 1
  else if is21Bit st then 1
  else 0.

(** [reaches st buf st' rest]: the loop of [Decode], entered in state [st] on
    the bytes [buf], comes to the head of an iteration in state [st'] with
    the bytes [rest] left. *)
Inductive reaches : State → list Z → State → list Z → Prop :=
  | reaches_here st buf : reaches st buf st buf
  | reaches_iter st b tl cp st1 rest1 st' rest' :
      decode_step st b tl = Ok (cp, st1, rest1) →
      reaches st1 rest1 st' rest' →
      reaches st (b :: tl) st' rest'.

(** The code points for which [Encode] uses neither an EXTRA sequence nor
    the leading byte 0xB0: Unicode scalar values below U+102800 outside the
    extra ranges. *)
Definition roundtrip_safe (cp : Z) : Prop :=
  is_scalar cp = true ∧ cp < 0x102800 ∧ inRanges cp rangesExtra = false.

(** Every range has [rng[0] <= rng[1]]. *)
Definition ranges_wf (ranges : list (Z * Z)) : Prop :=
  Forall (λ rng, rng.1 ≤ rng.2) ranges.

(** The number of values a list of ranges holds, [rng[1] - rng[0]] summed. *)
Fixpoint ranges_size (ranges : list (Z * Z)) : Z :=
  match ranges with
  | [] => 0
  | rng :: ranges' => (rng.2 - rng.1) + ranges_size ranges'
  end.

(** No two of the ranges share a value. *)
Fixpoint ranges_disjoint (ranges : list (Z * Z)) : Prop :=
  match ranges with
  | [] => True
  | rng :: ranges' =>
      Forall (λ rng', rng.2 ≤ rng'.1 ∨ rng'.2 ≤ rng.1) ranges'
      ∧ ranges_disjoint ranges'
  end.

(** What the loops keep true of the state: [offs] is not negative and is a
    multiple of 0x80, of 0x8000 in 21-bit mode; [auxOffs] is not negative. *)
Definition state_ok (st : State) : Prop :=
  0 ≤ offs st
  ∧ offs st `mod` 0x80 = 0
  ∧ (is21Bit st = true → offs st `mod` 0x8000 = 0)
  ∧ 0 ≤ auxOffs st.

(** [state_ok], with an auxiliary offset that is not 0x0531. *)
Definition state_ok_aux (st : State) : Prop :=
  state_ok st ∧ auxOffs st ≠ 0x0531.

(** The code points U+0000..U+007F and U+00C0..U+00FF. *)
Definition is_latin1_kept (cp : Z) : Prop :=
  0 ≤ cp ≤ 0x7F ∨ 0xC0 ≤ cp ≤ 0xFF.

#[local] Instance is_latin1_kept_dec cp : Decision (is_latin1_kept cp).
Proof. unfold is_latin1_kept. apply _. Defined.

#[local] Instance State_eq_dec : EqDecision State.
Proof. solve_decision. Defined.

(** A code point of U+0300..U+1FFF, or of the Hiragana/Katakana range
    U+3000..U+30FF, whose 13-bit window is [W]. *)
Definition in_block13 (W cp : Z) : Prop :=
  (0x300 ≤ cp < 0x2000 ∨ 0x3000 ≤ cp < 0x3100)
  ∧ Z.land cp offsMask13Bit = W.

(** A code point from U+2800 on, outside the extra ranges, whose 21-bit
    window is [W]. *)
Definition in_block21 (W cp : Z) : Prop :=
  min21BitCp ≤ cp ∧ inRanges cp rangesExtra = false
  ∧ Z.land (cp - min21BitCp) offsMask21Bit = W.

(** A byte value. *)
Definition is_byte (b : Z) : Prop := 0 ≤ b < 256.

(** ** Running the codec on examples *)

Example getAuxOffset_cyrillic : getAuxOffset 0x400 = 0x410.
Proof. vm_compute. reflexivity. Qed.

Example getAuxOffset_latin : getAuxOffset 0 = 0.
Proof. vm_compute. reflexivity. Qed.

(** "Hello World!" is emitted as its ASCII bytes. *)
Example Encode_hello_world :
  Encode [0x48; 0x65; 0x6C; 0x6C; 0x6F; 0x20; 0x57; 0x6F; 0x72; 0x6C; 0x64;
          0x21]
  = [0x48; 0x65; 0x6C; 0x6C; 0x6F; 0x20; 0x57; 0x6F; 0x72; 0x6C; 0x64; 0x21].
Proof. vm_compute. reflexivity. Qed.

(** Cyrillic: one SHIFT13, then bytes of the window; a Latin letter after it
    goes through the Latin remap of the auxiliary alphabet. *)
Example Encode_privet_A :
  Encode [0x41F; 0x440; 0x438; 0x432; 0x435; 0x442; 0x41]
  = [0x84; 0x1F; 0x40; 0x38; 0x32; 0x35; 0x42; 0xC0].
Proof. vm_compute. reflexivity. Qed.

Example Decode_privet_A :
  Decode [0x84; 0x1F; 0x40; 0x38; 0x32; 0x35; 0x42; 0xC0]
  = Ok [0x41F; 0x440; 0x438; 0x432; 0x435; 0x442; 0x41].
Proof. vm_compute. reflexivity. Qed.

(** With the Latin remap active the hyphen is not remapped: the range
    (0x2D, 0x2C) of [rangesLatin] holds no code point. *)
Example hyphen_not_in_rangesLatin : inRanges 0x2D rangesLatin = false.
Proof. reflexivity. Qed.

Example Encode_hyphen_after_cyrillic :
  Encode [0x41F; 0x2D] = [0x84; 0x1F; 0x80; 0x2D].
Proof. vm_compute. reflexivity. Qed.

(** ** Basic facts about the two loops *)

Lemma decode_from_cons st b tl :
  decode_from st (b :: tl) =
    match decode_step st b tl with
    | Ok (cp, st', rest) =>
        result_map (cons (string_of_rune (rune cp))) (decode_from st' rest)
    | PanicIndexOutOfRange => PanicIndexOutOfRange
    end.
Proof.
  unfold decode_step. cbn [decode_from]. unfold decode_iter.
  repeat case_match; reflexivity.
Qed.

Lemma encode_from_cons st cp str :
  encode_from st (cp :: str) =
    (encode_step st cp).1 ++ encode_from (encode_step st cp).2 str.
Proof. cbn [encode_from]. by destruct (encode_step st cp). Qed.

Lemma encode_from_app st u v :
  encode_from st (u ++ v) =
    encode_from st u ++ encode_from (encode_state st u) v.
Proof.
  revert st. induction u as [|cp u IH]; intros st; [done|].
  rewrite <- app_comm_cons, !encode_from_cons. cbn [encode_state].
  by rewrite IH, app_assoc.
Qed.

Lemma encode_step_length st cp :
  (1 ≤ length (encode_step st cp).1 ≤ 3)%nat.
Proof. unfold encode_step. repeat case_match; cbn; lia. Qed.

Lemma encode_from_length st str :
  (length str ≤ length (encode_from st str) ≤ 3 * length str)%nat.
Proof.
  revert st. induction str as [|cp str IH]; intros st; [cbn; lia|].
  rewrite encode_from_cons, length_app. cbn [length].
  pose proof (encode_step_length st cp).
  pose proof (IH (encode_step st cp).2). lia.
Qed.

Lemma result_map_cons_app {A} (x : A) (l : list A) (r : result (list A)) :
  result_map (cons x) (result_map (app l) r) = result_map (app (x :: l)) r.
Proof. by destruct r. Qed.

(** ** Facts about bytes and masks, by enumeration of a finite range *)

Lemma Z_range_ind (P : Z → Prop) `{!∀ x, Decision (P x)} (lo n : Z) :
  bool_decide (Forall P (seqZ lo n)) = true →
  ∀ x, lo ≤ x < lo + n → P x.
Proof.
  intros Hall x Hx. apply bool_decide_eq_true in Hall.
  rewrite Forall_seqZ in Hall. by apply Hall.
Qed.

Ltac by_range lo n :=
  let x := fresh "x" in
  let Hx := fresh "Hx" in
  intros x Hx; pattern x;
  apply (Z_range_ind _ lo n); [vm_compute; reflexivity | lia].

Lemma land_mask13_ascii : ∀ cp, 0 ≤ cp ≤ 0x7F → Z.land cp offsMask13Bit = 0.
Proof. by_range 0 128. Qed.

Lemma byte_low7_ascii : ∀ cp, 0 ≤ cp ≤ 0x7F → byte (Z.land cp 0x7F) = cp.
Proof. by_range 0 128. Qed.

Lemma not_extra_ascii : ∀ cp, 0 ≤ cp ≤ 0x7F → inRanges cp rangesExtra = false.
Proof. by_range 0 128. Qed.

(** How the marker tests of [Decode] split the byte values. *)
Lemma marker_tests : ∀ b, 0 ≤ b < 256 →
  (Z.land b markerAux =? markerAux) = (0xC0 <=? b)
  ∧ (Z.land b markerExtra =? markerExtra) = ((0xB0 <=? b) && (b <=? 0xBF)
                                              || (0xF0 <=? b))
  ∧ (Z.land b marker21Bit =? marker21Bit) = ((0xA0 <=? b) && (b <=? 0xBF)
                                              || (0xE0 <=? b))
  ∧ (Z.land b marker13Bit =? marker13Bit) = (0x80 <=? b).
Proof. by_range 0 256. Qed.

Lemma lxor_markerExtra : ∀ b, 0xB0 ≤ b ≤ 0xBF →
  Z.lxor b markerExtra = Z.land b 0x0F.
Proof. by_range 0xB0 16. Qed.

Lemma extra_lead_byte : ∀ q, 0 ≤ q ≤ 14 →
  0xB1 ≤ byte (Z.lor markerExtra (1 + q)) ≤ 0xBF.
Proof. by_range 0 15. Qed.

Lemma shift21_lead_byte : ∀ q, 0 ≤ q ≤ 16 →
  byte (Z.lor marker21Bit q) = 0xA0 + q.
Proof. by_range 0 17. Qed.

Lemma shift21_classified : ∀ b, 0xA0 ≤ b ≤ 0xAF →
  (Z.land b markerAux =? markerAux) = false
  ∧ (Z.land b markerExtra =? markerExtra) = false
  ∧ (Z.land b marker21Bit =? marker21Bit) = true.
Proof. by_range 0xA0 16. Qed.

Lemma extra_classified : ∀ b, 0xB0 ≤ b ≤ 0xBF →
  (Z.land b markerAux =? markerAux) = false
  ∧ (Z.land b markerExtra =? markerExtra) = true.
Proof. by_range 0xB0 16. Qed.

Lemma latin_remap_byte : ∀ cp, 0x20 ≤ cp < 0x20 + 0x5B →
  is_latin_remapped cp →
  inRanges cp rangesLatin = true
  ∧ 0xC0 ≤ byte (Z.lor markerAux (encodeRanges cp rangesLatin)) ≤ 0xFE.
Proof. by_range 0x20 0x5B. Qed.

(** Leading bytes as [Decode] tests them. *)
Lemma aux_latin_byte : ∀ cp, 0x20 ≤ cp < 0x20 + 0x5B →
  inRanges cp rangesLatin = true →
  (Z.land (byte (Z.lor markerAux (encodeRanges cp rangesLatin))) markerAux
   =? markerAux) = true
  ∧ decodeRanges
      (Z.lxor (byte (Z.lor markerAux (encodeRanges cp rangesLatin))) markerAux)
      rangesLatin = cp.
Proof. by_range 0x20 0x5B. Qed.

Lemma aux_byte : ∀ d, 0 ≤ d < 64 →
  (Z.land (byte (Z.lor markerAux d)) markerAux =? markerAux) = true
  ∧ Z.lxor (byte (Z.lor markerAux d)) markerAux = d.
Proof. by_range 0 64. Qed.

Lemma base_byte : ∀ m, 0 ≤ m < 128 →
  byte m = m
  ∧ (Z.land m markerAux =? markerAux) = false
  ∧ (Z.land m markerExtra =? markerExtra) = false
  ∧ (Z.land m marker21Bit =? marker21Bit) = false
  ∧ (Z.land m marker13Bit =? marker13Bit) = false.
Proof. by_range 0 128. Qed.

Lemma shift13_byte : ∀ q, 0 ≤ q < 32 →
  (Z.land (byte (Z.lor marker13Bit q)) markerAux =? markerAux) = false
  ∧ (Z.land (byte (Z.lor marker13Bit q)) markerExtra =? markerExtra) = false
  ∧ (Z.land (byte (Z.lor marker13Bit q)) marker21Bit =? marker21Bit) = false
  ∧ (Z.land (byte (Z.lor marker13Bit q)) marker13Bit =? marker13Bit) = true
  ∧ Z.lxor (byte (Z.lor marker13Bit q)) marker13Bit = q.
Proof. by_range 0 32. Qed.

Lemma shift21_byte : ∀ q, 0 ≤ q < 16 →
  (Z.land (byte (Z.lor marker21Bit q)) markerAux =? markerAux) = false
  ∧ (Z.land (byte (Z.lor marker21Bit q)) markerExtra =? markerExtra) = false
  ∧ (Z.land (byte (Z.lor marker21Bit q)) marker21Bit =? marker21Bit) = true
  ∧ Z.lxor (byte (Z.lor marker21Bit q)) marker21Bit = q.
Proof. by_range 0 16. Qed.

(** ** Facts about the range helpers and the conversions *)

Lemma geb_false (x y : Z) : x < y → (x >=? y) = false.
Proof. intros. rewrite Z.geb_leb. by apply Z.leb_gt. Qed.

Lemma in_rangeHK cp :
  (cp >=? rangeHK.1) && (cp <? rangeHK.2) = true ↔ 0x3000 ≤ cp < 0x3100.
Proof.
  cbn [rangeHK fst snd].
  rewrite andb_true_iff, Z.geb_leb, Z.leb_le, Z.ltb_lt. lia.
Qed.

Lemma not_in_rangeHK cp :
  (cp >=? rangeHK.1) && (cp <? rangeHK.2) = false ↔ ¬ 0x3000 ≤ cp < 0x3100.
Proof. rewrite <- in_rangeHK. by destruct (_ && _). Qed.

(** The index of a code point of the extra ranges. *)
Lemma encodeRanges_extra_bound cp :
  inRanges cp rangesExtra = true → 0 ≤ encodeRanges cp rangesExtra < 0xEA0.
Proof.
  unfold inRanges, encodeRanges, encodeRanges_from, rangesExtra, rangeHK.
  cbn [fst snd]. repeat case_match; try discriminate; lia.
Qed.

Lemma inRanges_latin_bound cp :
  inRanges cp rangesLatin = true → 0x20 ≤ cp < 0x20 + 0x5B.
Proof.
  unfold inRanges, rangesLatin. cbn [fst snd].
  repeat case_match; try discriminate; lia.
Qed.

(** Outside the extra ranges a code point below [min21BitCp] has 13 bits. *)
Lemma not_extra_13bit cp :
  inRanges cp rangesExtra = false → cp < min21BitCp → cp < 0x2000.
Proof.
  unfold inRanges, rangesExtra, min21BitCp. cbn [fst snd].
  repeat case_match; try discriminate; intros _ Hlt.
  repeat match goal with
         | H : _ && _ = false |- _ => apply andb_false_iff in H as [H|H]
         | H : (_ <=? _) = false |- _ => apply Z.leb_gt in H
         | H : (_ <? _) = false |- _ => apply Z.ltb_ge in H
         end; lia.
Qed.

(** The extra ranges hold 0xEA0 code points: [decodeRanges] gives -1 exactly
    for the indices from 0xEA0 on. *)
Lemma decodeRanges_extra_none v :
  0 ≤ v → decodeRanges v rangesExtra = -1 ↔ 0xEA0 ≤ v.
Proof.
  intros Hv. unfold decodeRanges, rangesExtra, rangeHK. cbn [fst snd].
  repeat case_match;
    repeat match goal with
           | H : (_ <? _) = true |- _ => apply Z.ltb_lt in H
           | H : (_ <? _) = false |- _ => apply Z.ltb_ge in H
           end; lia.
Qed.

Lemma string_of_rune_minus_one : string_of_rune (rune (-1)) = 0xFFFD.
Proof. reflexivity. Qed.

Lemma string_of_rune_scalar cp :
  is_scalar cp = true → string_of_rune (rune cp) = cp.
Proof.
  intros Hs. assert (0 ≤ cp ≤ 0x10FFFF) as Hcp.
  { unfold is_scalar in Hs. apply andb_true_iff in Hs as [Hs _].
    apply andb_true_iff in Hs as [H0 H1]. apply Z.leb_le in H0, H1. done. }
  assert (rune cp = cp) as ->; [|unfold string_of_rune; by rewrite Hs].
  unfold rune. rewrite Z.mod_small; lia.
Qed.

(** ** Masks and shifts as arithmetic *)

(** A mask of [n] ones shifted left by [k] selects the bits [k .. k+n-1]. *)
Lemma land_shifted_ones (c n k : Z) :
  0 ≤ n → 0 ≤ k →
  Z.land c (Z.shiftl (Z.ones n) k) = (c `div` 2 ^ k) `mod` 2 ^ n * 2 ^ k.
Proof.
  intros Hn Hk.
  rewrite <- Z.shiftl_mul_pow2, <- Z.land_ones, <- Z.shiftr_div_pow2 by done.
  apply Z.bits_inj'. intros i Hi. rewrite Z.land_spec.
  destruct (Z.lt_ge_cases i k) as [Hlt|Hge].
  - rewrite !Z.shiftl_spec_low by done. apply andb_false_r.
  - rewrite !Z.shiftl_spec, Z.land_spec, Z.shiftr_spec by lia.
    by replace (i - k + k) with i by lia.
Qed.

(** The or of two parts that share no bit is their sum. *)
Lemma lor_disjoint (a b k : Z) :
  0 ≤ k → 0 ≤ b < 2 ^ k → Z.lor (a * 2 ^ k) b = a * 2 ^ k + b.
Proof.
  intros Hk Hb. rewrite <- Z.add_lor_land.
  assert (Z.land (a * 2 ^ k) b = 0) as ->; [|by rewrite Z.add_0_r].
  rewrite <- Z.shiftl_mul_pow2 by done.
  apply Z.bits_inj'. intros i Hi. rewrite Z.land_spec, Z.bits_0.
  destruct (Z.lt_ge_cases i k) as [Hlt|Hge].
  - by rewrite Z.shiftl_spec_low.
  - destruct (decide (b = 0)) as [->|Hnz].
    + rewrite Z.bits_0. apply andb_false_r.
    + assert (Z.log2 b < k) by (apply Z.log2_lt_pow2; lia).
      rewrite (Z.bits_above_log2 b i) by lia. apply andb_false_r.
Qed.

Ltac divmod := Z.div_mod_to_equations; lia.

Lemma mask13_shape : offsMask13Bit = Z.shiftl (Z.ones 25) 7.
Proof. reflexivity. Qed.

Lemma mask21_shape : offsMask21Bit = Z.shiftl (Z.ones 17) 15.
Proof. reflexivity. Qed.

Lemma land_mask13 cp :
  0 ≤ cp < 2 ^ 32 → Z.land cp offsMask13Bit = cp `div` 128 * 128.
Proof.
  intros Hcp. rewrite mask13_shape, land_shifted_ones by lia.
  change (2 ^ 7) with 128. rewrite Z.mod_small; [done|].
  change (2 ^ 25) with 33554432. change (2 ^ 32) with 4294967296 in Hcp.
  divmod.
Qed.

Lemma land_mask21 c :
  0 ≤ c < 2 ^ 32 → Z.land c offsMask21Bit = c `div` 32768 * 32768.
Proof.
  intros Hc. rewrite mask21_shape, land_shifted_ones by lia.
  change (2 ^ 15) with 32768. rewrite Z.mod_small; [done|].
  change (2 ^ 17) with 131072. change (2 ^ 32) with 4294967296 in Hc.
  divmod.
Qed.

(** The window and the low seven bits give the code point back. *)
Lemma base13_join cp :
  0 ≤ cp < 2 ^ 32 → Z.lor (Z.land cp offsMask13Bit) (cp `mod` 128) = cp.
Proof.
  intros Hcp. rewrite land_mask13 by done.
  rewrite (lor_disjoint _ _ 7) by (change (2 ^ 7) with 128; divmod).
  divmod.
Qed.

(** The 21-bit window and the low fifteen bits, in two bytes. *)
Lemma base21_join c :
  0 ≤ c < 2 ^ 32 →
  Z.lor (Z.lor (Z.land c offsMask21Bit)
               (Z.shiftl ((c `div` 256) `mod` 128) 8))
        (c `mod` 256) = c.
Proof.
  intros Hc. rewrite land_mask21, Z.shiftl_mul_pow2 by lia.
  change (c `div` 32768 * 32768) with (c `div` 32768 * 2 ^ 15).
  rewrite (lor_disjoint _ _ 15) by (change (2 ^ 15) with 32768; divmod).
  replace (c `div` 32768 * 2 ^ 15 + (c `div` 256) `mod` 128 * 2 ^ 8)
    with ((c `div` 256) * 2 ^ 8) by divmod.
  rewrite (lor_disjoint _ _ 8) by (change (2 ^ 8) with 256; divmod).
  divmod.
Qed.

(** Two bytes of a 13-bit code point. *)
Lemma shift13_join cp :
  0 ≤ cp → Z.lor (Z.shiftl (Z.shiftr cp 8) 8) (cp `mod` 256) = cp.
Proof.
  intros Hcp. rewrite Z.shiftl_mul_pow2, Z.shiftr_div_pow2 by lia.
  rewrite (lor_disjoint _ _ 8) by (change (2 ^ 8) with 256; divmod).
  divmod.
Qed.

(** Three bytes of a 21-bit code point. *)
Lemma shift21_join c :
  0 ≤ c →
  Z.lor (Z.lor (Z.shiftl (Z.shiftr c 16) 16)
               (Z.shiftl (Z.shiftr c 8 `mod` 256) 8))
        (c `mod` 256) = c.
Proof.
  intros Hc. rewrite !Z.shiftl_mul_pow2, !Z.shiftr_div_pow2 by lia.
  rewrite (lor_disjoint _ _ 16)
    by (change (2 ^ 8) with 256; change (2 ^ 16) with 65536; divmod).
  replace (c `div` 2 ^ 16 * 2 ^ 16 + (c `div` 2 ^ 8) `mod` 256 * 2 ^ 8)
    with ((c `div` 2 ^ 8) * 2 ^ 8)
    by (change (2 ^ 8) with 256; change (2 ^ 16) with 65536; divmod).
  rewrite (lor_disjoint _ _ 8) by (change (2 ^ 8) with 256; divmod).
  change (2 ^ 8) with 256. divmod.
Qed.

Lemma shift21_high_bits cp :
  min21BitCp ≤ cp ≤ 0x10FFFF →
  0 ≤ Z.shiftr (cp - min21BitCp) 16 ≤ 16
  ∧ (Z.shiftr (cp - min21BitCp) 16 = 16 ↔ 0x102800 ≤ cp).
Proof.
  unfold min21BitCp. intros Hcp. rewrite Z.shiftr_div_pow2 by lia.
  change (2 ^ 16) with 65536. divmod.
Qed.

(** The range helpers and the table lookup are kept folded in the case
    analyses of the two loop bodies below. *)
#[local] Opaque decodeRanges encodeRanges getAuxOffset.

(** ** ASCII in the Latin window *)

(** With the Latin window active and an auxiliary alphabet above ASCII, an
    ASCII code point is emitted as itself and the state stays. *)
Lemma encode_step_ascii st cp :
  offs st = 0 → is21Bit st = false → 0x7F < auxOffs st → is_ascii cp →
  encode_step st cp = ([cp], st).
Proof.
  intros Hoffs H21 Haux Hcp. unfold is_ascii in Hcp. unfold encode_step.
  replace (auxOffs st =? 0) with false by (symmetry; apply Z.eqb_neq; lia).
  rewrite (geb_false cp (auxOffs st)) by lia. cbn [andb negb].
  rewrite not_extra_ascii by done.
  rewrite (geb_false cp min21BitCp) by (unfold min21BitCp; lia).
  rewrite H21, Hoffs, land_mask13_ascii by done. cbn [negb andb Z.eqb].
  by rewrite byte_low7_ascii.
Qed.

Lemma encode_from_ascii st str :
  offs st = 0 → is21Bit st = false → 0x7F < auxOffs st →
  Forall is_ascii str → encode_from st str = str.
Proof.
  intros Hoffs H21 Haux. induction 1 as [|cp str Hcp _ IH]; [done|].
  rewrite encode_from_cons, encode_step_ascii by done. cbn. by rewrite IH.
Qed.

(** C2.  ASCII identity: a string whose code points all lie in
    U+0000..U+007F is encoded as those same values, one byte each, which is
    its ASCII (and UTF-8) byte sequence. *)
Theorem Encode_ascii_identity (s : list Z) :
  Forall is_ascii s → Encode s = s.
Proof.
  intros Hs. apply encode_from_ascii; [done | done | | done].
  cbn. unfold offsInitAux. lia.
Qed.

Lemma Encode_ascii_identity_witness :
  Forall is_ascii [0x01; 0x1F; 0x7F; 0x21; 0x41; 0x2D]
  ∧ Encode [0x01; 0x1F; 0x7F; 0x21; 0x41; 0x2D]
    = [0x01; 0x1F; 0x7F; 0x21; 0x41; 0x2D].
Proof.
  assert (H : Forall is_ascii [0x01; 0x1F; 0x7F; 0x21; 0x41; 0x2D])
    by (repeat constructor; unfold is_ascii; lia).
  split; [exact H | exact (Encode_ascii_identity _ H)].
Defined.

(** The control characters U+0001..U+001F and U+007F in particular. *)
Corollary Encode_control_identity (s : list Z) :
  Forall (λ cp, 0x01 ≤ cp ≤ 0x1F ∨ cp = 0x7F) s → Encode s = s.
Proof.
  intros Hs. apply encode_from_ascii; [done | done | cbn; unfold offsInitAux; lia |].
  eapply Forall_impl; [exact Hs|]. unfold is_ascii. cbn. lia.
Qed.

(** ** Size and append *)

(** C6.  Size bound: [Encode] emits at most three bytes per code point. *)
Theorem Encode_size_bound (s : list Z) :
  (length (Encode s) ≤ 3 * length s)%nat.
Proof. apply encode_from_length. Qed.

(** C7.  The encoder is append-only: the bytes emitted for [u] are a prefix
    of the bytes emitted for [u ++ v]. *)
Theorem Encode_prefix (u v : list Z) :
  Encode u `prefix_of` Encode (u ++ v).
Proof.
  exists (encode_from (encode_state init u) v). apply encode_from_app.
Qed.

(** ** The Latin remap of the auxiliary alphabet *)

Lemma encode_step_latin_remap st cp :
  auxOffs st = 0 → is_latin_remapped cp →
  encode_step st cp
  = ([byte (Z.lor markerAux (encodeRanges cp rangesLatin))], st).
Proof.
  intros Haux Hcp. unfold encode_step. rewrite Haux. cbn [Z.eqb andb].
  destruct (latin_remap_byte cp) as [-> _]; [|done..].
  unfold is_latin_remapped in Hcp. lia.
Qed.

(** C3, the claim as stated fails: [Encode] starts with the auxiliary
    alphabet at U+00C0, not at the Latin remap, so "A" is emitted as the
    ASCII byte 0x41. *)
Lemma Encode_A_is_ascii :
  Encode [0x41] = [0x41]
  ∧ Encode [0x41] ≠ [0xC0]
  ∧ ¬ Forall (λ b, 0xC0 ≤ b ≤ 0xFF) (Encode [0x41]).
Proof.
  assert (H : Encode [0x41] = [0x41]) by (vm_compute; reflexivity).
  rewrite H. split; [done|]. split; [discriminate|].
  intros Hall. apply Forall_cons_1 in Hall as [Hb _]. lia.
Qed.

(** C3, amended.  In a state whose auxiliary alphabet is the Latin remap
    ([auxOffs = 0]), text drawn from the letters A-Z and a-z, the digits and
    the space is emitted one byte per character, every byte in 0xC0..0xFE,
    and the state is left as it was; there "A" gives 0xC0, "Z" 0xD9, "a"
    0xDA, "z" 0xF3, "0" 0xF4, "9" 0xFD and " " 0xFE. *)
Theorem encode_latin_remap (st : State) (s : list Z) :
  auxOffs st = 0 → Forall is_latin_remapped s →
  Forall (λ b, 0xC0 ≤ b ≤ 0xFE) (encode_from st s)
  ∧ length (encode_from st s) = length s
  ∧ encode_state st s = st
  ∧ encode_from st [0x41] = [0xC0] ∧ encode_from st [0x5A] = [0xD9]
  ∧ encode_from st [0x61] = [0xDA] ∧ encode_from st [0x7A] = [0xF3]
  ∧ encode_from st [0x30] = [0xF4] ∧ encode_from st [0x39] = [0xFD]
  ∧ encode_from st [0x20] = [0xFE].
Proof.
  intros Haux Hs. repeat split.
  4-10: cbn [encode_from]; rewrite encode_step_latin_remap;
    [reflexivity | done | unfold is_latin_remapped; lia].
  - induction Hs as [|cp s Hcp _ IH]; [constructor|].
    rewrite encode_from_cons, encode_step_latin_remap by done. cbn.
    constructor; [|exact IH].
    apply latin_remap_byte; [|done]. unfold is_latin_remapped in Hcp. lia.
  - induction Hs as [|cp s Hcp _ IH]; [done|].
    rewrite encode_from_cons, encode_step_latin_remap by done. cbn.
    by rewrite IH.
  - induction Hs as [|cp s Hcp _ IH]; [done|].
    cbn [encode_state]. by rewrite encode_step_latin_remap.
Qed.

(** The state after the Cyrillic letter U+041F has the Latin remap as its
    auxiliary alphabet. *)
Lemma encode_latin_remap_witness :
  auxOffs (encode_state init [0x41F]) = 0
  ∧ Forall is_latin_remapped [0x55; 0x74; 0x66; 0x20; 0x38]
  ∧ Forall (λ b, 0xC0 ≤ b ≤ 0xFE)
      (encode_from (encode_state init [0x41F]) [0x55; 0x74; 0x66; 0x20; 0x38]).
Proof.
  assert (Ha : auxOffs (encode_state init [0x41F]) = 0)
    by (vm_compute; reflexivity).
  assert (Hs : Forall is_latin_remapped [0x55; 0x74; 0x66; 0x20; 0x38])
    by (repeat constructor; unfold is_latin_remapped; lia).
  split; [exact Ha|]. split; [exact Hs|].
  exact (proj1 (encode_latin_remap _ _ Ha Hs)).
Defined.

(** ** Leading bytes of SHIFT21 and EXTRA *)

(** Three bytes are emitted by the 21-bit switch only. *)
Lemma encode_step_three st cp b1 b2 b3 :
  (encode_step st cp).1 = [b1; b2; b3] →
  (cp >=? min21BitCp) = true
  ∧ b1 = byte (Z.lor marker21Bit (Z.shiftr (cp - min21BitCp) 16))
  ∧ (encode_step st cp).2
    = {| offs := Z.land (cp - min21BitCp) offsMask21Bit; auxOffs := offs st;
         is21Bit := true |}.
Proof.
  unfold encode_step. repeat case_match; cbn [fst snd]; intros Hout;
    try discriminate Hout.
  by injection Hout as <- _ _.
Qed.

(** The leading byte of a two-byte sequence for a code point of the extra
    ranges lies in 0xB1..0xBF, which [Decode] takes as EXTRA. *)
Lemma extra_lead_byte_range st cp b1 b2 :
  inRanges cp rangesExtra = true → (encode_step st cp).1 = [b1; b2] →
  0xB1 ≤ b1 ≤ 0xBF.
Proof.
  intros Hin. unfold encode_step. rewrite Hin.
  repeat case_match; cbn [fst snd]; intros Hout; try discriminate Hout.
  all: injection Hout as <- _; apply extra_lead_byte.
  all: pose proof (encodeRanges_extra_bound cp Hin) as Hb.
  all: rewrite Z.shiftr_div_pow2 by lia; change (2 ^ 8) with 256; divmod.
Qed.

(** C4, the claim as stated fails: U+102800 is emitted as a three-byte
    sequence whose leading byte is 0xB0, of top nibble 1011. *)
Lemma shift21_lead_byte_0xB0 :
  is_scalar 0x102800 = true
  ∧ (encode_step init 0x102800).1 = [0xB0; 0x00; 0x00]
  ∧ Z.land 0xB0 0xF0 = 0xB0.
Proof. vm_compute. done. Qed.

(** C4, amended.  For a code point up to U+10FFFF emitted as a three-byte
    SHIFT21 sequence, the leading byte lies in 0xA0..0xB0, so never in
    0xB1..0xBF; it is 0xB0 exactly for the code points from U+102800 on; for
    the code points below U+102800 it lies in 0xA0..0xAF and the marker
    tests of [Decode] take it as SHIFT21. *)
Theorem shift21_lead_byte_range (st : State) (cp b1 b2 b3 : Z) :
  0 ≤ cp ≤ 0x10FFFF → (encode_step st cp).1 = [b1; b2; b3] →
  0xA0 ≤ b1 ≤ 0xB0
  ∧ (b1 = 0xB0 ↔ 0x102800 ≤ cp)
  ∧ (cp < 0x102800 →
     0xA0 ≤ b1 ≤ 0xAF
     ∧ (Z.land b1 markerAux =? markerAux) = false
     ∧ (Z.land b1 markerExtra =? markerExtra) = false
     ∧ (Z.land b1 marker21Bit =? marker21Bit) = true).
Proof.
  intros Hcp Hout. apply encode_step_three in Hout as (Hge & -> & _).
  rewrite Z.geb_leb in Hge. apply Z.leb_le in Hge.
  destruct (shift21_high_bits cp) as [Hq Hq16]; [lia|].
  rewrite shift21_lead_byte by done.
  split; [lia|]. split; [rewrite <- Hq16; lia|].
  intros Hlt.
  assert (0xA0 ≤ 0xA0 + Z.shiftr (cp - min21BitCp) 16 ≤ 0xAF) as Hb by lia.
  split; [exact Hb|]. by apply shift21_classified.
Qed.

Lemma shift21_lead_byte_range_witness :
  0 ≤ 0x10000 ≤ 0x10FFFF
  ∧ (encode_step init 0x10000).1 = [0xA0; 0xD8; 0x00]
  ∧ 0xA0 ≤ 0xA0 ≤ 0xB0.
Proof.
  assert (Hcp : 0 ≤ 0x10000 ≤ 0x10FFFF) by lia.
  assert (Hout : (encode_step init 0x10000).1 = [0xA0; 0xD8; 0x00])
    by (vm_compute; reflexivity).
  split; [exact Hcp|]. split; [exact Hout|].
  exact (proj1 (shift21_lead_byte_range init 0x10000 0xA0 0xD8 0x00 Hcp Hout)).
Defined.

(** ** The window offset after a change of state *)

(** C5, the claim as stated fails: from the initial state U+0100 is emitted
    as a SHIFT13 sequence that changes the state (the auxiliary alphabet
    becomes the Latin remap) and leaves [offs = 0], not 0x100. *)
Lemma shift13_latin_keeps_window :
  (encode_step init 0x100).1 = [0x81; 0x00]
  ∧ (encode_step init 0x100).2 ≠ init
  ∧ is21Bit (encode_step init 0x100).2 = false
  ∧ offs (encode_step init 0x100).2 = 0
  ∧ Z.land 0x100 offsMask13Bit = 0x100.
Proof. vm_compute. repeat split; discriminate. Qed.

(** C5, amended.  In [Encode] and in [Decode], after an iteration for a code
    point [cp] that changes the state: in 21-bit mode (after a 21-bit switch)
    [offs = (cp - 0x2800) & 0xFFFF8000]; in 13-bit mode (after a SHIFT13 or
    a Hiragana/Katakana EXTRA) [offs = cp & 0xFFFFFF80] when [cp > 0x2FF],
    and [offs = 0] when [cp <= 0x2FF]. *)
Theorem offs_window_invariant (st : State) :
  (∀ cp, (encode_step st cp).2 ≠ st → window_of (encode_step st cp).2 cp)
  ∧ (∀ b tl cp st' rest,
       decode_step st b tl = Ok (cp, st', rest) → st' ≠ st →
       window_of st' cp).
Proof.
  split.
  - intros cp. unfold encode_step, window_of.
    repeat case_match; cbn [fst snd offs is21Bit]; intros Hne;
      try done; try congruence.
    (* Hiragana/Katakana EXTRA: the code point is above [maxLatinCp] *)
    match goal with
    | HK : _ && _ = true, HL : (_ <=? maxLatinCp) = true |- _ =>
        apply in_rangeHK in HK; apply Z.leb_le in HL;
        unfold maxLatinCp in HL; lia
    end.
  - intros b tl cp st' rest. unfold decode_step, decode_iter, window_of.
    repeat case_match; intros Heq Hne; try done.
    all: injection Heq as <- <- <-.
    all: cbn [offs is21Bit] in *; try done; try congruence.
    + match goal with
      | HK : _ && _ = true, HL : (_ <=? maxLatinCp) = true |- _ =>
          apply in_rangeHK in HK; apply Z.leb_le in HL;
          unfold maxLatinCp in HL; lia
      end.
    + by rewrite Z.add_simpl_r.
Qed.

Lemma offs_window_invariant_witness :
  (encode_step init 0x41F).2 ≠ init
  ∧ decode_step init 0xA0 [0xD8; 0x00]
    = Ok (0x10000, {| offs := 0x8000; auxOffs := 0; is21Bit := true |}, [])
  ∧ window_of (encode_step init 0x41F).2 0x41F
  ∧ window_of {| offs := 0x8000; auxOffs := 0; is21Bit := true |} 0x10000.
Proof.
  assert (He : (encode_step init 0x41F).2 ≠ init)
    by (vm_compute; discriminate).
  assert (Hd : decode_step init 0xA0 [0xD8; 0x00]
               = Ok (0x10000,
                     {| offs := 0x8000; auxOffs := 0; is21Bit := true |}, []))
    by (vm_compute; reflexivity).
  assert (Hn : {| offs := 0x8000; auxOffs := 0; is21Bit := true |} ≠ init)
    by discriminate.
  split; [exact He|]. split; [exact Hd|]. split.
  - exact (proj1 (offs_window_invariant init) 0x41F He).
  - exact (proj2 (offs_window_invariant init) _ _ _ _ _ Hd Hn).
Defined.

(** ** The frame of an EXTRA sequence *)

(** C8.  An EXTRA sequence changes the state only for a code point of the
    Hiragana/Katakana range [0x3000, 0x3100).  In [Encode]: a code point of
    the extra ranges emitted as two bytes leaves [offs], [auxOffs] and
    [is21Bit] as they were when it is outside that range, and sets them
    when it is inside.  In [Decode]: an EXTRA leading byte (0xB0..0xBF)
    followed by its second byte leaves the three variables as they were when
    the decoded code point is outside the range, and sets them when it is
    inside. *)
Theorem extra_frame (st : State) :
  (∀ cp out st',
     inRanges cp rangesExtra = true →
     encode_step st cp = (out, st') → length out = 2%nat →
     (¬ 0x3000 ≤ cp < 0x3100 → st' = st)
     ∧ (st' ≠ st → 0x3000 ≤ cp < 0x3100)
     ∧ (0x3000 ≤ cp < 0x3100 →
        st' = {| offs := Z.land cp offsMask13Bit;
                 auxOffs := getAuxOffset (offs st); is21Bit := false |}
        ∧ st' ≠ st))
  ∧ (∀ b b2 tl cp st' rest,
       0xB0 ≤ b ≤ 0xBF →
       decode_step st b (b2 :: tl) = Ok (cp, st', rest) →
       rest = tl
       ∧ (¬ 0x3000 ≤ cp < 0x3100 → st' = st)
       ∧ (st' ≠ st → 0x3000 ≤ cp < 0x3100)
       ∧ (0x3000 ≤ cp < 0x3100 →
          st' = {| offs := Z.land cp offsMask13Bit;
                   auxOffs := getAuxOffset (offs st); is21Bit := false |})).
Proof.
  split.
  - intros cp out st' Hin. unfold encode_step. rewrite Hin.
    repeat case_match; intros [= <- <-] Hlen; try discriminate Hlen.
    + (* inside the range *)
      match goal with HK : _ && _ = true |- _ => apply in_rangeHK in HK end.
      assert ({| offs := Z.land cp offsMask13Bit;
                 auxOffs := getAuxOffset (offs st); is21Bit := false |} ≠ st)
        as Hne.
      { intros Heq.
        match goal with
        | HW : negb (is21Bit st) && _ = false |- _ =>
            rewrite <- Heq in HW; cbn in HW; rewrite Z.eqb_refl in HW;
            discriminate HW
        end. }
      split; [done|]. split; done.
    + (* outside the range *)
      match goal with
      | HK : _ && _ = false |- _ => apply not_in_rangeHK in HK
      end.
      split; [done|]. split; done.
  - intros b b2 tl cp st' rest Hb.
    unfold decode_step, decode_iter.
    destruct (extra_classified b Hb) as [-> ->].
    case_match; intros [= <- <- <-].
    + match goal with HK : _ && _ = true |- _ => apply in_rangeHK in HK end.
      split; [done|]. split; [done|]. split; done.
    + match goal with
      | HK : _ && _ = false |- _ => apply not_in_rangeHK in HK
      end.
      split; [done|]. split; [done|]. split; done.
Qed.

(** The emoji U+1F600 from the initial state, and the second byte pair
    0xBD 0xA0 in the initial state. *)
Lemma extra_frame_witness :
  inRanges 0x1F600 rangesExtra = true
  ∧ encode_step init 0x1F600 = ([0xBD; 0xA0], init)
  ∧ 0xB0 ≤ 0xBD ≤ 0xBF
  ∧ decode_step init 0xBD [0xA0] = Ok (0x1F900, init, [])
  ∧ (¬ 0x3000 ≤ 0x1F600 < 0x3100 → init = init)
  ∧ (¬ 0x3000 ≤ 0x1F900 < 0x3100 → init = init).
Proof.
  assert (Hin : inRanges 0x1F600 rangesExtra = true) by reflexivity.
  assert (He : encode_step init 0x1F600 = ([0xBD; 0xA0], init))
    by (vm_compute; reflexivity).
  assert (Hb : 0xB0 ≤ 0xBD ≤ 0xBF) by lia.
  assert (Hd : decode_step init 0xBD [0xA0] = Ok (0x1F900, init, []))
    by (vm_compute; reflexivity).
  split; [exact Hin|]. split; [exact He|]. split; [exact Hb|].
  split; [exact Hd|]. split.
  - exact (proj1 (proj1 (extra_frame init) _ _ _ Hin He eq_refl)).
  - exact (proj1 (proj2 (proj2 (extra_frame init) _ _ _ _ _ _ Hb Hd))).
Defined.

(** ** Truncated input *)

Lemma decode_step_truncated st b tl :
  0 ≤ b < 256 → (length tl < continuation_bytes st b)%nat →
  decode_step st b tl = PanicIndexOutOfRange.
Proof.
  intros Hb. destruct (marker_tests b Hb) as (Ha & He & H21 & H13).
  unfold decode_step, decode_iter, continuation_bytes.
  rewrite Ha, He, H21, H13.
  repeat match goal with
         | |- context [?x <=? ?y] => destruct (Z.leb_spec x y)
         end; cbn [andb orb]; try lia;
    destruct (is21Bit st); destruct tl as [|b2 [|b3 tl3]]; cbn [length];
    first [lia | reflexivity].
Qed.

Lemma reaches_panic st buf st' rest :
  reaches st buf st' rest →
  decode_from st' rest = PanicIndexOutOfRange →
  decode_from st buf = PanicIndexOutOfRange.
Proof.
  induction 1 as [|st b tl cp st1 rest1 st' rest' Hstep _ IH]; [done|].
  intros Hp. rewrite decode_from_cons, Hstep, (IH Hp). reflexivity.
Qed.

(** C9.  Truncated input: when the loop of [Decode] comes to a leading byte
    [b] that is followed by fewer bytes than its variant requires, [Decode]
    does not return a string: it fails with the index-out-of-range panic. *)
Theorem Decode_truncated (buf : list Z) (st : State) (b : Z) (tl : list Z) :
  0 ≤ b < 256 →
  reaches init buf st (b :: tl) →
  (length tl < continuation_bytes st b)%nat →
  Decode buf = PanicIndexOutOfRange.
Proof.
  intros Hb Hreach Hlen. eapply reaches_panic; [exact Hreach|].
  by rewrite decode_from_cons, decode_step_truncated.
Qed.

(** A SHIFT21 leading byte with one of its two continuation bytes, after the
    complete sequence of U+041F. *)
Lemma Decode_truncated_witness :
  0 ≤ 0xA0 < 256
  ∧ reaches init [0x84; 0x1F; 0xA0; 0xD8]
            {| offs := 0x400; auxOffs := 0; is21Bit := false |} [0xA0; 0xD8]
  ∧ (length [0xD8]
     < continuation_bytes {| offs := 0x400; auxOffs := 0; is21Bit := false |}
                          0xA0)%nat
  ∧ Decode [0x84; 0x1F; 0xA0; 0xD8] = PanicIndexOutOfRange.
Proof.
  assert (Hb : 0 ≤ 0xA0 < 256) by lia.
  assert (Hr : reaches init [0x84; 0x1F; 0xA0; 0xD8]
                 {| offs := 0x400; auxOffs := 0; is21Bit := false |}
                 [0xA0; 0xD8]).
  { eapply reaches_iter; [vm_compute; reflexivity | apply reaches_here]. }
  assert (Hl : (length [0xD8]
                < continuation_bytes
                    {| offs := 0x400; auxOffs := 0; is21Bit := false |}
                    0xA0)%nat) by (cbn; lia).
  split; [exact Hb|]. split; [exact Hr|]. split; [exact Hl|].
  exact (Decode_truncated _ _ _ _ Hb Hr Hl).
Defined.

(** ** An EXTRA index outside the extra ranges *)

(** C10.  A complete two-byte EXTRA sequence whose index
    [v = ((b & 0x0F) << 8) | b2] is outside the extra ranges
    ([decodeRanges] gives -1) raises no error: the iteration yields -1, which
    [string(rune(-1))] turns into U+FFFD, leaves the state as it was, and the
    loop goes on with the bytes after the sequence. *)
Theorem extra_invalid_index (st : State) (b b2 : Z) (tl : list Z) :
  0xB0 ≤ b ≤ 0xBF →
  decodeRanges (Z.lor (Z.shiftl (Z.land b 0x0F) 8) b2) rangesExtra = -1 →
  decode_step st b (b2 :: tl) = Ok (-1, st, tl)
  ∧ string_of_rune (rune (-1)) = 0xFFFD
  ∧ decode_from st (b :: b2 :: tl)
    = result_map (cons 0xFFFD) (decode_from st tl).
Proof.
  intros Hb Hv.
  assert (Hstep : decode_step st b (b2 :: tl) = Ok (-1, st, tl)).
  { unfold decode_step, decode_iter.
    destruct (extra_classified b Hb) as [-> ->].
    rewrite lxor_markerExtra, Hv by done. reflexivity. }
  split; [exact Hstep|]. split; [reflexivity|].
  by rewrite decode_from_cons, Hstep.
Qed.

Lemma extra_invalid_index_witness :
  0xB0 ≤ 0xBF ≤ 0xBF
  ∧ decodeRanges (Z.lor (Z.shiftl (Z.land 0xBF 0x0F) 8) 0xFF) rangesExtra = -1
  ∧ Decode [0xBF; 0xFF; 0x41] = Ok [0xFFFD; 0x41].
Proof.
  assert (Hb : 0xB0 ≤ 0xBF ≤ 0xBF) by lia.
  assert (Hv : decodeRanges (Z.lor (Z.shiftl (Z.land 0xBF 0x0F) 8) 0xFF)
                 rangesExtra = -1) by (vm_compute; reflexivity).
  split; [exact Hb|]. split; [exact Hv|].
  unfold Decode.
  rewrite (proj2 (proj2 (extra_invalid_index init 0xBF 0xFF [0x41] Hb Hv))).
  vm_compute. reflexivity.
Defined.

(** ** Round trip *)

(** One iteration of [Decode] undoes one iteration of [Encode], for a code
    point below U+102800 outside the extra ranges. *)
Lemma decode_encode_step st cp rest :
  0 ≤ cp < 0x102800 → inRanges cp rangesExtra = false →
  ∃ b tl, (encode_step st cp).1 ++ rest = b :: tl
          ∧ decode_step st b tl = Ok (cp, (encode_step st cp).2, rest).
Proof.
  intros Hcp Hextra. unfold encode_step. rewrite Hextra.
  destruct ((auxOffs st =? 0) && inRanges cp rangesLatin) eqn:Hlat.
  { (* AUX, Latin remap *)
    apply andb_true_iff in Hlat as [Haux Hin].
    eexists _, _. split; [reflexivity|]. cbn [snd].
    unfold decode_step, decode_iter.
    destruct (aux_latin_byte cp (inRanges_latin_bound cp Hin) Hin) as [-> ->].
    by rewrite Haux. }
  destruct (negb (auxOffs st =? 0) && (cp >=? auxOffs st)
            && (cp <=? auxOffs st + 0x3F)) eqn:Haux.
  { (* AUX *)
    apply andb_true_iff in Haux as [Haux Hle].
    apply andb_true_iff in Haux as [Hnz Hge].
    rewrite Z.geb_leb in Hge. apply Z.leb_le in Hge, Hle.
    eexists _, _. split; [reflexivity|]. cbn [snd].
    unfold decode_step, decode_iter.
    destruct (aux_byte (cp - auxOffs st)) as [-> ->]; [lia|].
    apply negb_true_iff in Hnz. rewrite Hnz.
    do 3 f_equal. lia. }
  destruct (cp >=? min21BitCp) eqn:H21.
  - (* 21 bits *)
    rewrite Z.geb_leb in H21. apply Z.leb_le in H21. unfold min21BitCp in H21.
    set (c := cp - min21BitCp).
    assert (0 ≤ c < 0x100000) as Hc by (unfold c, min21BitCp; lia).
    destruct (is21Bit st && (Z.land c offsMask21Bit =? offs st)) eqn:Hwin.
    + (* BASE, two bytes *)
      apply andb_true_iff in Hwin as [Hmode Hoffs]. apply Z.eqb_eq in Hoffs.
      eexists _, _. split; [reflexivity|]. cbn [snd].
      unfold decode_step, decode_iter.
      rewrite Z.shiftr_div_pow2 by lia. change (2 ^ 8) with 256.
      change 0x7F with (Z.ones 7). rewrite Z.land_ones by lia.
      change (2 ^ 7) with 128.
      destruct (base_byte ((c `div` 256) `mod` 128))
        as (-> & -> & -> & -> & ->); [divmod|].
      rewrite Hmode, <- Hoffs. unfold byte.
      rewrite base21_join by lia. do 3 f_equal. unfold c. lia.
    + (* SHIFT21 *)
      eexists _, _. split; [reflexivity|]. cbn [snd].
      unfold decode_step, decode_iter.
      assert (0 ≤ Z.shiftr c 16 < 16) as Hq.
      { rewrite Z.shiftr_div_pow2 by lia. change (2 ^ 16) with 65536.
        divmod. }
      destruct (shift21_byte _ Hq) as (-> & -> & -> & ->).
      unfold byte. rewrite shift21_join by lia.
      do 3 f_equal. unfold c. lia.
  - (* 13 bits *)
    rewrite Z.geb_leb in H21. apply Z.leb_gt in H21.
    pose proof (not_extra_13bit cp Hextra H21) as H13.
    change 0x7F with (Z.ones 7). change 0xFF with (Z.ones 8).
    rewrite !Z.land_ones by lia. change (2 ^ 7) with 128.
    change (2 ^ 8) with 256.
    destruct (negb (is21Bit st) && (Z.land cp offsMask13Bit =? offs st))
      eqn:Hwin.
    + (* BASE, one byte *)
      apply andb_true_iff in Hwin as [Hmode Hoffs]. apply Z.eqb_eq in Hoffs.
      apply negb_true_iff in Hmode.
      eexists _, _. split; [reflexivity|]. cbn [snd].
      unfold decode_step, decode_iter.
      destruct (base_byte (cp `mod` 128)) as (-> & -> & -> & -> & ->);
        [divmod|].
      rewrite Hmode, <- Hoffs, base13_join by lia. reflexivity.
    + (* SHIFT13 *)
      eexists _, _. split; [reflexivity|]. cbn [snd].
      unfold decode_step, decode_iter.
      assert (0 ≤ Z.shiftr cp 8 < 32) as Hq.
      { rewrite Z.shiftr_div_pow2 by lia. change (2 ^ 8) with 256. divmod. }
      destruct (shift13_byte _ Hq) as (-> & -> & -> & -> & ->).
      unfold byte. rewrite Z.mod_mod by lia.
      rewrite shift13_join by lia. reflexivity.
Qed.

Lemma decode_encode_from st s rest :
  Forall roundtrip_safe s →
  decode_from st (encode_from st s ++ rest)
  = result_map (app s) (decode_from (encode_state st s) rest).
Proof.
  intros Hs. revert st.
  induction Hs as [|cp s (Hscalar & Hlt & Hextra) _ IH]; intros st.
  { cbn [encode_from encode_state app]. by destruct (decode_from st rest). }
  rewrite encode_from_cons, <- app_assoc. cbn [encode_state].
  assert (0 ≤ cp < 0x102800) as Hcp.
  { unfold is_scalar in Hscalar. apply andb_true_iff in Hscalar as [H _].
    apply andb_true_iff in H as [H _]. apply Z.leb_le in H. lia. }
  destruct (decode_encode_step st cp
              (encode_from (encode_step st cp).2 s ++ rest) Hcp Hextra)
    as (b & tl & -> & Hstep).
  rewrite decode_from_cons, Hstep, IH, string_of_rune_scalar by done.
  apply result_map_cons_app.
Qed.

(** X17.  Where the round trip holds: for every string of Unicode scalar
    values below U+102800 outside the extra ranges, [Decode] gives back the
    string that [Encode] was given. *)
Theorem Decode_Encode_outside_extra (s : list Z) :
  Forall roundtrip_safe s → Decode (Encode s) = Ok s.
Proof.
  intros Hs. unfold Decode, Encode.
  rewrite <- (app_nil_r (encode_from init s)), decode_encode_from by done.
  cbn [decode_from result_map]. by rewrite app_nil_r.
Qed.

(** Outside the extra ranges and below U+102800 the examples of the
    documentation come back as they were. *)
Example Decode_Encode_examples :
  Decode (Encode [0x48; 0x65; 0x6C; 0x6C; 0x6F; 0x20; 0x57; 0x6F; 0x72; 0x6C;
                  0x64; 0x21])
  = Ok [0x48; 0x65; 0x6C; 0x6C; 0x6F; 0x20; 0x57; 0x6F; 0x72; 0x6C; 0x64;
        0x21]
  ∧ Decode (Encode [0x10000]) = Ok [0x10000]
  ∧ Decode (Encode [0x61; 0xE9]) = Ok [0x61; 0xE9].
Proof. vm_compute. done. Qed.

(** C1, the round trip [Decode (Encode s) = s], fails on the code for the
    code points emitted as EXTRA sequences.  [Encode] writes the high nibble
    of the EXTRA index plus one into the leading byte, [Decode] reads the
    nibble back without taking the one off, so every EXTRA sequence is
    decoded 0x100 index positions further: U+1F600 comes back as U+1F900,
    U+2000 as U+2100, and Hiragana as code points of the fourth extra
    range. *)
Theorem Decode_Encode_extra_shifted :
  Encode [0x1F600] = [0xBD; 0xA0]
  ∧ Decode (Encode [0x1F600]) = Ok [0x1F900]
  ∧ Decode (Encode [0x2000]) = Ok [0x2100]
  ∧ Decode (Encode [0x3053; 0x3093]) = Ok [0x1F1B3; 0x1F1F3].
Proof. vm_compute. done. Qed.

(** The 21-bit switch of a code point from U+102800 on has the leading byte
    0xB0, which [Decode] takes as EXTRA. *)
Example Decode_Encode_plane16 :
  Encode [0x102800] = [0xB0; 0x00; 0x00]
  ∧ Decode (Encode [0x102800]) = Ok [0x2000; 0x0000].
Proof. vm_compute. done. Qed.

(** The proofs below unfold the range helpers and the table lookup. *)
#[local] Transparent decodeRanges encodeRanges getAuxOffset.

(** ** The range helpers on any list of ranges *)

Lemma ranges_size_nonneg ranges : ranges_wf ranges → 0 ≤ ranges_size ranges.
Proof. induction 1 as [|rng ranges Hr _ IH]; cbn [ranges_size]; lia. Qed.

Lemma range_test_true (rng : Z * Z) cp :
  (rng.1 <=? cp) && (cp <? rng.2) = true ↔ rng.1 ≤ cp < rng.2.
Proof. rewrite andb_true_iff, Z.leb_le, Z.ltb_lt. done. Qed.

Lemma range_test_false (rng : Z * Z) cp :
  (rng.1 <=? cp) && (cp <? rng.2) = false ↔ ¬ rng.1 ≤ cp < rng.2.
Proof. rewrite <- range_test_true. by destruct (_ && _). Qed.

Lemma encodeRanges_from_miss v cp ranges :
  inRanges cp ranges = false → encodeRanges_from v cp ranges = -1.
Proof.
  revert v. induction ranges as [|rng ranges IH]; intros v; [done|].
  cbn [inRanges encodeRanges_from].
  destruct ((rng.1 <=? cp) && (cp <? rng.2)); [done|]. apply IH.
Qed.

Lemma encodeRanges_from_hit v cp ranges :
  ranges_wf ranges → inRanges cp ranges = true →
  v ≤ encodeRanges_from v cp ranges < v + ranges_size ranges.
Proof.
  intros Hwf. revert v.
  induction Hwf as [|rng ranges Hr Hwf IH]; intros v; [done|].
  cbn [inRanges encodeRanges_from ranges_size].
  pose proof (ranges_size_nonneg ranges Hwf).
  destruct ((rng.1 <=? cp) && (cp <? rng.2)) eqn:Hhit.
  - apply range_test_true in Hhit. lia.
  - intros Hin. specialize (IH (v + (rng.2 - rng.1)) Hin). lia.
Qed.

Lemma decodeRanges_encodeRanges_from v cp ranges :
  ranges_wf ranges → inRanges cp ranges = true →
  decodeRanges (encodeRanges_from v cp ranges - v) ranges = cp.
Proof.
  intros Hwf. revert v.
  induction Hwf as [|rng ranges Hr Hwf IH]; intros v; [done|].
  cbn [inRanges encodeRanges_from decodeRanges].
  destruct ((rng.1 <=? cp) && (cp <? rng.2)) eqn:Hhit.
  - intros _. apply range_test_true in Hhit.
    replace (v + (cp - rng.1) - v <? rng.2 - rng.1) with true
      by (symmetry; apply Z.ltb_lt; lia).
    lia.
  - intros Hin.
    pose proof (encodeRanges_from_hit (v + (rng.2 - rng.1)) cp ranges Hwf Hin).
    replace (encodeRanges_from (v + (rng.2 - rng.1)) cp ranges - v
             <? rng.2 - rng.1) with false
      by (symmetry; apply Z.ltb_ge; lia).
    rewrite <- (IH (v + (rng.2 - rng.1)) Hin) at 2. f_equal. lia.
Qed.

(** X1.  [decodeRanges] undoes [encodeRanges]: for ranges with
    [rng[0] <= rng[1]] and a value that [inRanges] finds, the index that
    [encodeRanges] gives is decoded back to the value. *)
Theorem decodeRanges_encodeRanges (cp : Z) (ranges : list (Z * Z)) :
  ranges_wf ranges → inRanges cp ranges = true →
  decodeRanges (encodeRanges cp ranges) ranges = cp.
Proof.
  intros Hwf Hin. unfold encodeRanges.
  rewrite <- (decodeRanges_encodeRanges_from 0 cp ranges Hwf Hin) at 2.
  f_equal. lia.
Qed.

Lemma rangesExtra_wf : ranges_wf rangesExtra.
Proof. repeat constructor; cbn; lia. Qed.

Lemma decodeRanges_encodeRanges_witness :
  ranges_wf rangesExtra ∧ inRanges 0x1F600 rangesExtra = true
  ∧ decodeRanges (encodeRanges 0x1F600 rangesExtra) rangesExtra = 0x1F600.
Proof.
  assert (Hin : inRanges 0x1F600 rangesExtra = true) by reflexivity.
  split; [exact rangesExtra_wf|]. split; [exact Hin|].
  exact (decodeRanges_encodeRanges _ _ rangesExtra_wf Hin).
Defined.

(** X2.  [encodeRanges] gives -1 for a value in no range, whatever the
    ranges; for ranges with [rng[0] <= rng[1]] it gives an index in
    [0, size) for a value in a range, so -1 means "in no range" exactly. *)
Theorem encodeRanges_miss_iff (cp : Z) (ranges : list (Z * Z)) :
  ranges_wf ranges →
  (inRanges cp ranges = false → encodeRanges cp ranges = -1)
  ∧ (inRanges cp ranges = true →
     0 ≤ encodeRanges cp ranges < ranges_size ranges)
  ∧ (encodeRanges cp ranges = -1 ↔ inRanges cp ranges = false).
Proof.
  intros Hwf.
  assert (Hmiss : inRanges cp ranges = false → encodeRanges cp ranges = -1)
    by apply encodeRanges_from_miss.
  assert (Hhit : inRanges cp ranges = true →
                 0 ≤ encodeRanges cp ranges < ranges_size ranges).
  { intros Hin. pose proof (encodeRanges_from_hit 0 cp ranges Hwf Hin).
    unfold encodeRanges. lia. }
  split; [exact Hmiss|]. split; [exact Hhit|]. split; [|exact Hmiss].
  destruct (inRanges cp ranges); [|done]. intros He.
  specialize (Hhit eq_refl). lia.
Qed.

Lemma encodeRanges_miss_iff_witness :
  ranges_wf rangesExtra
  ∧ (encodeRanges 0x41 rangesExtra = -1 ↔ inRanges 0x41 rangesExtra = false).
Proof.
  split; [exact rangesExtra_wf|].
  exact (proj2 (proj2 (encodeRanges_miss_iff 0x41 _ rangesExtra_wf))).
Defined.

Lemma decodeRanges_in_out (v : Z) (ranges : list (Z * Z)) :
  ranges_wf ranges → 0 ≤ v →
  (v < ranges_size ranges → inRanges (decodeRanges v ranges) ranges = true)
  ∧ (ranges_size ranges ≤ v → decodeRanges v ranges = -1).
Proof.
  intros Hwf. revert v.
  induction Hwf as [|rng ranges Hr Hwf IH]; intros v Hv.
  { cbn. split; [lia|done]. }
  cbn [ranges_size decodeRanges inRanges].
  pose proof (ranges_size_nonneg ranges Hwf).
  destruct (Z.ltb_spec v (rng.2 - rng.1)) as [Hlt|Hge].
  - split; [|lia]. intros _.
    replace ((rng.1 <=? rng.1 + v) && (rng.1 + v <? rng.2)) with true; [done|].
    symmetry. apply range_test_true. lia.
  - destruct (IH (v - (rng.2 - rng.1))) as [IHin IHout]; [lia|].
    split.
    + intros Hlt. rewrite IHin by lia. by destruct (_ && _).
    + intros Hout. apply IHout. lia.
Qed.

(** X3.  [decodeRanges] on ranges with [rng[0] <= rng[1]]: an index in
    [0, size) is decoded to a value that [inRanges] finds; an index from the
    size on gives -1. *)
Theorem decodeRanges_bounds (v : Z) (ranges : list (Z * Z)) :
  ranges_wf ranges → 0 ≤ v →
  (v < ranges_size ranges → inRanges (decodeRanges v ranges) ranges = true)
  ∧ (ranges_size ranges ≤ v → decodeRanges v ranges = -1).
Proof. apply decodeRanges_in_out. Qed.

Lemma decodeRanges_bounds_witness :
  ranges_wf rangesExtra ∧ 0 ≤ 0xEA0
  ∧ (ranges_size rangesExtra ≤ 0xEA0 → decodeRanges 0xEA0 rangesExtra = -1).
Proof.
  assert (H0 : 0 ≤ 0xEA0) by lia.
  split; [exact rangesExtra_wf|]. split; [exact H0|].
  exact (proj2 (decodeRanges_bounds 0xEA0 _ rangesExtra_wf H0)).
Defined.

Lemma inRanges_not_in_disjoint (rng : Z * Z) x ranges :
  Forall (λ rng', rng.2 ≤ rng'.1 ∨ rng'.2 ≤ rng.1) ranges →
  inRanges x ranges = true → ¬ rng.1 ≤ x < rng.2.
Proof.
  induction 1 as [|rng' ranges Hd _ IH]; [done|].
  cbn [inRanges]. destruct ((rng'.1 <=? x) && (x <? rng'.2)) eqn:Hhit.
  - intros _. apply range_test_true in Hhit. lia.
  - exact IH.
Qed.

Lemma encodeRanges_from_decodeRanges a v ranges :
  ranges_wf ranges → ranges_disjoint ranges → 0 ≤ v < ranges_size ranges →
  encodeRanges_from a (decodeRanges v ranges) ranges = a + v.
Proof.
  intros Hwf. revert a v.
  induction Hwf as [|rng ranges Hr Hwf IH]; intros a v Hdis Hv.
  { cbn in Hv. lia. }
  destruct Hdis as [Hd Hdis]. cbn [ranges_size] in Hv. cbn [decodeRanges encodeRanges_from].
  destruct (Z.ltb_spec v (rng.2 - rng.1)) as [Hlt|Hge].
  - replace ((rng.1 <=? rng.1 + v) && (rng.1 + v <? rng.2)) with true
      by (symmetry; apply range_test_true; lia).
    lia.
  - destruct (decodeRanges_in_out (v - (rng.2 - rng.1)) ranges Hwf)
      as [Hin _]; [lia|].
    specialize (Hin ltac:(lia)).
    pose proof (inRanges_not_in_disjoint rng _ ranges Hd Hin) as Hout.
    apply range_test_false in Hout. rewrite Hout.
    rewrite IH by (done || lia). lia.
Qed.

(** X4.  [encodeRanges] undoes [decodeRanges]: for ranges with
    [rng[0] <= rng[1]] that share no value, an index in [0, size) is decoded
    to a value whose index is the one decoded. *)
Theorem encodeRanges_decodeRanges (v : Z) (ranges : list (Z * Z)) :
  ranges_wf ranges → ranges_disjoint ranges → 0 ≤ v < ranges_size ranges →
  encodeRanges (decodeRanges v ranges) ranges = v.
Proof.
  intros Hwf Hdis Hv. unfold encodeRanges.
  by rewrite encodeRanges_from_decodeRanges.
Qed.

Lemma rangesExtra_disjoint : ranges_disjoint rangesExtra.
Proof. cbn. repeat split; repeat constructor; cbn; lia. Qed.

Lemma encodeRanges_decodeRanges_witness :
  ranges_wf rangesExtra ∧ ranges_disjoint rangesExtra
  ∧ 0 ≤ 0xCA0 < ranges_size rangesExtra
  ∧ encodeRanges (decodeRanges 0xCA0 rangesExtra) rangesExtra = 0xCA0.
Proof.
  assert (Hv : 0 ≤ 0xCA0 < ranges_size rangesExtra) by (cbn; lia).
  split; [exact rangesExtra_wf|]. split; [exact rangesExtra_disjoint|].
  split; [exact Hv|].
  exact (encodeRanges_decodeRanges _ _ rangesExtra_wf rangesExtra_disjoint Hv).
Defined.

(** ** The Latin table *)

(** X5.  The Latin table.  Its last range (0x2D, 0x2C) holds nothing:
    [inRanges] finds exactly the letters, the digits and the space, 63
    values, not the hyphen; [encodeRanges] numbers them 0..62 and
    [decodeRanges] gives each back; the index 63 is decoded to -1. *)
Theorem rangesLatin_table (cp : Z) :
  (inRanges cp rangesLatin = true ↔ is_latin_remapped cp)
  ∧ inRanges 0x2D rangesLatin = false
  ∧ (is_latin_remapped cp →
     0 ≤ encodeRanges cp rangesLatin ≤ 62
     ∧ decodeRanges (encodeRanges cp rangesLatin) rangesLatin = cp)
  ∧ decodeRanges 63 rangesLatin = -1.
Proof.
  assert (Hiff : inRanges cp rangesLatin = true ↔ is_latin_remapped cp).
  { unfold inRanges, rangesLatin, is_latin_remapped. cbn [fst snd].
    repeat case_match;
      repeat match goal with
             | H : _ && _ = true |- _ => apply range_test_true in H
             | H : _ && _ = false |- _ => apply range_test_false in H
             end; cbn [fst snd] in *; split; (done || lia). }
  split; [exact Hiff|]. split; [reflexivity|]. split; [|reflexivity].
  intros Hcp.
  unfold is_latin_remapped in Hcp.
  unfold encodeRanges, encodeRanges_from, decodeRanges, rangesLatin.
  cbn [fst snd].
  repeat case_match;
    repeat match goal with
           | H : _ && _ = true |- _ => apply range_test_true in H
           | H : _ && _ = false |- _ => apply range_test_false in H
           | H : (_ <? _) = true |- _ => apply Z.ltb_lt in H
           | H : (_ <? _) = false |- _ => apply Z.ltb_ge in H
           end; cbn [fst snd] in *; lia.
Qed.

Lemma rangesLatin_table_witness :
  is_latin_remapped 0x7A
  ∧ 0 ≤ encodeRanges 0x7A rangesLatin ≤ 62
  ∧ decodeRanges (encodeRanges 0x7A rangesLatin) rangesLatin = 0x7A.
Proof.
  assert (H : is_latin_remapped 0x7A) by (unfold is_latin_remapped; lia).
  split; [exact H|].
  exact (proj1 (proj2 (proj2 (rangesLatin_table 0x7A))) H).
Defined.

(** ** The auxiliary offsets and the invariant of the state *)

(** Every entry of the table maps a key to a value from the key to 0x40
    above it. *)
Lemma auxOffset_entries :
  map_Forall (λ k r, k ≤ r ≤ k + 0x40) auxOffset.
Proof.
  apply (bool_decide_unpack (map_Forall (λ k r, k ≤ r ≤ k + 0x40) auxOffset)).
  vm_compute. exact I.
Qed.

Lemma getAuxOffset_range (offs0 : Z) :
  offs0 ≤ getAuxOffset offs0 ≤ offs0 + 0x40.
Proof.
  unfold getAuxOffset. destruct (auxOffset !! offs0) as [r|] eqn:Hl; [|lia].
  exact (auxOffset_entries _ _ Hl).
Qed.

(** X6.  [getAuxOffset] gives a start from [offs] to [offs + 0x40], [offs]
    itself for a key the table does not hold; so the 64 code points of the
    auxiliary alphabet all lie in the 128 code points from [offs] on. *)
Theorem getAuxOffset_bounds (offs0 : Z) :
  offs0 ≤ getAuxOffset offs0 ≤ offs0 + 0x40
  ∧ (auxOffset !! offs0 = None → getAuxOffset offs0 = offs0)
  ∧ (∀ cp, getAuxOffset offs0 ≤ cp ≤ getAuxOffset offs0 + 0x3F →
           offs0 ≤ cp ≤ offs0 + 0x7F).
Proof.
  pose proof (getAuxOffset_range offs0) as Hb.
  split; [exact Hb|]. split.
  - unfold getAuxOffset. by intros ->.
  - intros cp Hcp. lia.
Qed.

(** The key 0x0400 (Cyrillic), which the table holds, and the key 0, which it
    does not. *)
Lemma getAuxOffset_bounds_witness :
  auxOffset !! 0 = None ∧ getAuxOffset 0 = 0
  ∧ 0x400 ≤ getAuxOffset 0x400 ≤ 0x400 + 0x40.
Proof.
  assert (H : auxOffset !! 0 = None) by (vm_compute; reflexivity).
  split; [exact H|]. split.
  - exact (proj1 (proj2 (getAuxOffset_bounds 0)) H).
  - exact (proj1 (getAuxOffset_bounds 0x400)).
Defined.

Lemma land_mask13_aligned x :
  0 ≤ Z.land x offsMask13Bit ∧ Z.land x offsMask13Bit `mod` 0x80 = 0.
Proof.
  split.
  - apply Z.land_nonneg. right. unfold offsMask13Bit. lia.
  - rewrite mask13_shape, land_shifted_ones by lia.
    change (2 ^ 7) with 128. apply Z.mod_mul. lia.
Qed.

Lemma land_mask21_aligned x :
  0 ≤ Z.land x offsMask21Bit
  ∧ Z.land x offsMask21Bit `mod` 0x80 = 0
  ∧ Z.land x offsMask21Bit `mod` 0x8000 = 0.
Proof.
  split; [|split].
  - apply Z.land_nonneg. right. unfold offsMask21Bit. lia.
  - rewrite mask21_shape, land_shifted_ones by lia.
    change (2 ^ 15) with (256 * 128). rewrite Z.mul_assoc.
    apply Z.mod_mul. lia.
  - rewrite mask21_shape, land_shifted_ones by lia.
    change (2 ^ 15) with 32768. apply Z.mod_mul. lia.
Qed.

Lemma state_ok_init : state_ok init.
Proof. repeat split; cbn; (done || lia). Qed.

Lemma state_ok_13 st o :
  state_ok st → 0 ≤ o → o `mod` 0x80 = 0 →
  state_ok {| offs := o; auxOffs := getAuxOffset (offs st);
              is21Bit := false |}.
Proof.
  intros (H0 & _ & _ & _) Ho Ha.
  pose proof (getAuxOffset_range (offs st)) as Hb.
  repeat split; cbn [offs auxOffs is21Bit]; (done || lia).
Qed.

Lemma state_ok_shift21 st c :
  state_ok st →
  state_ok {| offs := Z.land c offsMask21Bit; auxOffs := offs st;
              is21Bit := true |}.
Proof.
  intros (H0 & _ & _ & _).
  destruct (land_mask21_aligned c) as (Hn & Ha & Hb).
  repeat split; cbn [offs auxOffs is21Bit]; (done || lia).
Qed.


Lemma encode_step_ok st cp : state_ok st → state_ok (encode_step st cp).2.
Proof.
  intros Hok. unfold encode_step.
  repeat case_match; cbn [snd]; try done;
    first [ by apply state_ok_shift21
          | apply state_ok_13; [done | | ];
            first [apply land_mask13_aligned | done] ].
Qed.

Lemma decode_step_ok st b tl cp st' rest :
  decode_step st b tl = Ok (cp, st', rest) → state_ok st → state_ok st'.
Proof.
  unfold decode_step, decode_iter.
  repeat case_match; intros Heq Hok; try done.
  all: injection Heq as _ <- _; try done.
  all: first [ by apply state_ok_shift21
             | apply state_ok_13; [done | | ];
               first [apply land_mask13_aligned | done] ].
Qed.


(** X7.  The state that the loop of [Encode] holds after any input has
    [offs] not negative and a multiple of 0x80, a multiple of 0x8000 in
    21-bit mode, and [auxOffs] not negative. *)
Theorem encode_state_ok (s : list Z) : state_ok (encode_state init s).
Proof.
  assert (H : ∀ st, state_ok st → state_ok (encode_state st s)).
  { induction s as [|cp s IH]; intros st Hok; [done|].
    cbn [encode_state]. by apply IH, encode_step_ok. }
  apply H, state_ok_init.
Qed.

Lemma reaches_ok st buf st' rest :
  reaches st buf st' rest → state_ok st → state_ok st'.
Proof.
  induction 1 as [|st b tl cp st1 rest1 st' rest' Hstep _ IH]; [done|].
  intros Hok. eapply IH, decode_step_ok; done.
Qed.

(** X8.  The same holds of every state in which the loop of [Decode] comes
    to the head of an iteration, whatever the bytes. *)
Theorem decode_state_ok (buf : list Z) (st : State) (rest : list Z) :
  reaches init buf st rest → state_ok st.
Proof. intros Hr. exact (reaches_ok _ _ _ _ Hr state_ok_init). Qed.

Lemma decode_state_ok_witness :
  reaches init [0x84; 0x1F; 0xA0; 0xD8]
          {| offs := 0x400; auxOffs := 0; is21Bit := false |} [0xA0; 0xD8]
  ∧ state_ok {| offs := 0x400; auxOffs := 0; is21Bit := false |}.
Proof.
  assert (Hr : reaches init [0x84; 0x1F; 0xA0; 0xD8]
                 {| offs := 0x400; auxOffs := 0; is21Bit := false |}
                 [0xA0; 0xD8]).
  { eapply reaches_iter; [vm_compute; reflexivity | apply reaches_here]. }
  split; [exact Hr | exact (decode_state_ok _ _ _ Hr)].
Defined.

Lemma auxOffset_armenian :
  map_Forall (λ k r, r = 0x0531 → k = 0x0530) auxOffset.
Proof.
  apply (bool_decide_unpack
           (map_Forall (λ k r, r = 0x0531 → k = 0x0530) auxOffset)).
  vm_compute. exact I.
Qed.

Lemma getAuxOffset_not_armenian o :
  o `mod` 0x80 = 0 → getAuxOffset o ≠ 0x0531.
Proof.
  intros Ha. unfold getAuxOffset.
  destruct (auxOffset !! o) as [r|] eqn:Hl.
  - intros ->. rewrite (auxOffset_armenian _ _ Hl eq_refl) in Ha.
    discriminate Ha.
  - intros ->. discriminate Ha.
Qed.


Lemma state_ok_aux_next st st' :
  state_ok_aux st → state_ok st' →
  st' = st ∨ auxOffs st' = getAuxOffset (offs st) ∨ auxOffs st' = offs st →
  state_ok_aux st'.
Proof.
  intros [(_ & Ha & _) Hx] Hok' Hcase. split; [done|].
  destruct Hcase as [->|[->| ->]]; [done| |].
  - by apply getAuxOffset_not_armenian.
  - intros Heq. rewrite Heq in Ha. discriminate Ha.
Qed.

Lemma encode_step_ok_aux st cp :
  state_ok_aux st → state_ok_aux (encode_step st cp).2.
Proof.
  intros Hok. apply (state_ok_aux_next st); [done | |].
  - apply encode_step_ok, Hok.
  - unfold encode_step. repeat case_match; cbn [snd auxOffs]; auto.
Qed.

Lemma decode_step_ok_aux st b tl cp st' rest :
  decode_step st b tl = Ok (cp, st', rest) →
  state_ok_aux st → state_ok_aux st'.
Proof.
  intros Hstep Hok. apply (state_ok_aux_next st); [done | |].
  - eapply decode_step_ok; [exact Hstep | apply Hok].
  - revert Hstep. unfold decode_step, decode_iter.
    repeat case_match; intros Heq; try done.
    all: injection Heq as _ <- _; cbn [auxOffs]; auto.
Qed.


Lemma encode_state_ok_aux st s :
  state_ok_aux st → state_ok_aux (encode_state st s).
Proof.
  revert st. induction s as [|cp s IH]; intros st Hok; [done|].
  cbn [encode_state]. by apply IH, encode_step_ok_aux.
Qed.

Lemma reaches_ok_aux st buf st' rest :
  reaches st buf st' rest → state_ok_aux st → state_ok_aux st'.
Proof.
  induction 1 as [|st b tl cp st1 rest1 st' rest' Hstep _ IH]; [done|].
  intros Hok. eapply IH, decode_step_ok_aux; done.
Qed.

Lemma state_ok_aux_init : state_ok_aux init.
Proof. split; [apply state_ok_init | discriminate]. Qed.

(** X9.  The table entry of key 0x0530 (Armenian, value 0x0531) is never
    used: 0x0530 is no multiple of 0x80, so [offs] never holds it and
    [auxOffs] never becomes 0x0531, neither in [Encode] nor in [Decode]. *)
Theorem armenian_entry_unused :
  auxOffset !! 0x0530 = Some 0x0531
  ∧ (∀ s, offs (encode_state init s) ≠ 0x0530
          ∧ auxOffs (encode_state init s) ≠ 0x0531)
  ∧ (∀ buf st rest, reaches init buf st rest →
                    offs st ≠ 0x0530 ∧ auxOffs st ≠ 0x0531).
Proof.
  assert (Hoffs : ∀ st, state_ok_aux st →
                        offs st ≠ 0x0530 ∧ auxOffs st ≠ 0x0531).
  { intros st [(_ & Ha & _) Hx]. split; [|done].
    intros Heq. rewrite Heq in Ha. discriminate Ha. }
  split; [vm_compute; reflexivity|]. split.
  - intros s. apply Hoffs, encode_state_ok_aux, state_ok_aux_init.
  - intros buf st rest Hr.
    apply Hoffs, (reaches_ok_aux _ _ _ _ Hr), state_ok_aux_init.
Qed.

Lemma armenian_entry_unused_witness :
  reaches init [0x85; 0x31] {| offs := 0x500; auxOffs := 0; is21Bit := false |} []
  ∧ offs {| offs := 0x500; auxOffs := 0; is21Bit := false |} ≠ 0x0530.
Proof.
  assert (Hr : reaches init [0x85; 0x31]
                 {| offs := 0x500; auxOffs := 0; is21Bit := false |} []).
  { eapply reaches_iter; [vm_compute; reflexivity | apply reaches_here]. }
  split; [exact Hr|].
  exact (proj1 (proj2 (proj2 armenian_entry_unused) _ _ _ Hr)).
Defined.

(** ** Sizes and the sequences that change the state *)

(** X10.  [Encode] emits at least one byte per code point; it returns the
    empty buffer for the empty string only. *)
Theorem Encode_length_lower (s : list Z) :
  (length s ≤ length (Encode s))%nat ∧ (Encode s = [] ↔ s = []).
Proof.
  pose proof (encode_from_length init s) as [Hlow _].
  fold (Encode s) in Hlow. split; [exact Hlow|]. split.
  - intros He. rewrite He in Hlow.
    destruct s; [done|]. cbn in Hlow. lia.
  - by intros ->.
Qed.

Lemma Encode_length_lower_witness :
  Encode [] = [] ∧ ([] : list Z) = [].
Proof.
  assert (H : Encode [] = []) by reflexivity.
  split; [exact H|]. exact (proj1 (proj2 (Encode_length_lower [])) H).
Defined.


(** X11.  Only sequences of two or three bytes change the state.  In
    [Encode] an iteration that leaves another state emits two bytes (SHIFT13
    or EXTRA, then in 13-bit mode) or three (SHIFT21, then in 21-bit mode),
    so a one-byte code never moves a window; in [Decode] an iteration that
    leaves another state began with a marker byte in 0x80..0xBF. *)
Theorem state_change_sequences (st : State) :
  (∀ cp, (encode_step st cp).2 ≠ st →
         length (encode_step st cp).1 = 2%nat
         ∧ is21Bit (encode_step st cp).2 = false
         ∨ length (encode_step st cp).1 = 3%nat
           ∧ is21Bit (encode_step st cp).2 = true)
  ∧ (∀ b tl cp st' rest,
       0 ≤ b < 256 → decode_step st b tl = Ok (cp, st', rest) → st' ≠ st →
       0x80 ≤ b ≤ 0xBF).
Proof.
  split.
  - intros cp. unfold encode_step.
    repeat case_match; cbn [fst snd length is21Bit]; intros Hne;
      try done; auto.
  - intros b tl cp st' rest Hb.
    destruct (Z.le_gt_cases 0x80 b) as [Hlo|Hlo];
      [destruct (Z.le_gt_cases b 0xBF) as [Hhi|Hhi]; [intros _ _; lia|]|].
    + (* AUX *)
      destruct (marker_tests b Hb) as (Ha & _).
      unfold decode_step, decode_iter. rewrite Ha.
      replace (192 <=? b) with true by (symmetry; apply Z.leb_le; lia).
      intros [= _ <- _] Hne. by destruct Hne.
    + (* BASE *)
      unfold decode_step, decode_iter.
      destruct (base_byte b) as (_ & -> & -> & -> & ->); [lia|].
      repeat case_match; intros Heq Hne; try done;
        injection Heq as _ <- _; by destruct Hne.
Qed.

Lemma state_change_sequences_witness :
  (encode_step init 0x41F).2 ≠ init
  ∧ (length (encode_step init 0x41F).1 = 2%nat
     ∧ is21Bit (encode_step init 0x41F).2 = false
     ∨ length (encode_step init 0x41F).1 = 3%nat
       ∧ is21Bit (encode_step init 0x41F).2 = true).
Proof.
  assert (He : (encode_step init 0x41F).2 ≠ init)
    by (vm_compute; discriminate).
  split; [exact He|].
  exact (proj1 (state_change_sequences init) 0x41F He).
Defined.


(** ** ISO-8859-1 text from the initial state *)

Lemma encode_step_latin1 : ∀ cp, 0 ≤ cp < 256 →
  is_latin1_kept cp → encode_step init cp = ([cp], init).
Proof. by_range 0 256. Qed.

Lemma latin1_bound cp : is_latin1_kept cp → 0 ≤ cp < 256.
Proof. unfold is_latin1_kept. lia. Qed.

(** X12.  A string over U+0000..U+007F and U+00C0..U+00FF is encoded as its
    ISO-8859-1 bytes: the ASCII part through the Latin window, the part from
    U+00C0 on through the initial auxiliary alphabet; no byte changes the
    state. *)
Theorem Encode_latin1_identity (s : list Z) :
  Forall is_latin1_kept s → Encode s = s ∧ encode_state init s = init.
Proof.
  unfold Encode. induction 1 as [|cp s Hcp _ [IHe IHs]]; [done|].
  rewrite encode_from_cons. cbn [encode_state].
  rewrite (encode_step_latin1 cp (latin1_bound cp Hcp) Hcp). cbn [fst snd].
  by rewrite IHe, IHs.
Qed.

Lemma Encode_latin1_identity_witness :
  Forall is_latin1_kept [0x63; 0x61; 0x66; 0xE9; 0x21]
  ∧ Encode [0x63; 0x61; 0x66; 0xE9; 0x21] = [0x63; 0x61; 0x66; 0xE9; 0x21].
Proof.
  assert (H : Forall is_latin1_kept [0x63; 0x61; 0x66; 0xE9; 0x21])
    by (repeat constructor; unfold is_latin1_kept; lia).
  split; [exact H | exact (proj1 (Encode_latin1_identity _ H))].
Defined.

Lemma aux_init_byte : ∀ b, 0xC0 ≤ b < 0xC0 + 64 →
  (Z.land b markerAux =? markerAux) = true
  ∧ offsInitAux + Z.lxor b markerAux = b.
Proof. by_range 0xC0 64. Qed.

Lemma decode_step_latin1 b tl :
  is_latin1_kept b → decode_step init b tl = Ok (b, init, tl).
Proof.
  intros [Hb|Hb]; unfold decode_step, decode_iter.
  - destruct (base_byte b) as (_ & -> & -> & -> & ->); [lia|].
    cbn [is21Bit init offs]. by rewrite Z.lor_0_l.
  - destruct (aux_init_byte b) as [-> Hv]; [lia|].
    cbn [auxOffs init]. change (offsInitAux =? 0) with false.
    cbn match. by rewrite Hv.
Qed.

(** X13.  [Decode] reads a buffer of bytes 0x00..0x7F and 0xC0..0xFF as
    ISO-8859-1: each byte is the code point of its value. *)
Theorem Decode_latin1_identity (buf : list Z) :
  Forall is_latin1_kept buf → Decode buf = Ok buf.
Proof.
  unfold Decode. induction 1 as [|b buf Hb _ IH]; [done|].
  rewrite decode_from_cons, decode_step_latin1, IH by done.
  cbn [result_map]. rewrite string_of_rune_scalar; [done|].
  pose proof (latin1_bound b Hb) as Hr. unfold is_scalar.
  apply andb_true_iff. split; [apply andb_true_iff; split|].
  - apply Z.leb_le. lia.
  - apply Z.leb_le. lia.
  - apply negb_true_iff, andb_false_iff. left. apply Z.leb_gt. lia.
Qed.

Lemma Decode_latin1_identity_witness :
  Forall is_latin1_kept [0x63; 0x61; 0x66; 0xE9; 0x21]
  ∧ Decode [0x63; 0x61; 0x66; 0xE9; 0x21]
    = Ok [0x63; 0x61; 0x66; 0xE9; 0x21].
Proof.
  assert (H : Forall is_latin1_kept [0x63; 0x61; 0x66; 0xE9; 0x21])
    by (repeat constructor; unfold is_latin1_kept; lia).
  split; [exact H | exact (Decode_latin1_identity _ H)].
Defined.

(** ** The Latin remap read back *)

Lemma latin_remap_decode : ∀ b, 0xC0 ≤ b < 0xC0 + 63 →
  (Z.land b markerAux =? markerAux) = true
  ∧ is_latin_remapped (decodeRanges (Z.lxor b markerAux) rangesLatin)
  ∧ byte (Z.lor markerAux
            (encodeRanges (decodeRanges (Z.lxor b markerAux) rangesLatin)
                          rangesLatin)) = b.
Proof. by_range 0xC0 63. Qed.

(** X14.  In a state whose auxiliary alphabet is the Latin remap
    ([auxOffs = 0]), [Decode] reads a byte 0xC0..0xFE as a letter, a digit
    or the space, the one that [Encode] emits as that byte in that state,
    and leaves the state; the byte 0xFF has no character: the iteration
    yields -1, that is U+FFFD. *)
Theorem decode_latin_remap (st : State) (b : Z) (tl : list Z) :
  auxOffs st = 0 →
  (0xC0 ≤ b ≤ 0xFE →
   ∃ cp, decode_step st b tl = Ok (cp, st, tl)
         ∧ is_latin_remapped cp ∧ encode_step st cp = ([b], st))
  ∧ decode_step st 0xFF tl = Ok (-1, st, tl).
Proof.
  intros Haux. split.
  - intros Hb. destruct (latin_remap_decode b) as (Ht & Hcp & Hback); [lia|].
    exists (decodeRanges (Z.lxor b markerAux) rangesLatin).
    split; [|split; [exact Hcp|]].
    + unfold decode_step, decode_iter. by rewrite Ht, Haux.
    + by rewrite encode_step_latin_remap, Hback.
  - unfold decode_step, decode_iter. by rewrite Haux.
Qed.

Lemma decode_latin_remap_witness :
  auxOffs {| offs := 0x400; auxOffs := 0; is21Bit := false |} = 0
  ∧ decode_step {| offs := 0x400; auxOffs := 0; is21Bit := false |} 0xFF []
    = Ok (-1, {| offs := 0x400; auxOffs := 0; is21Bit := false |}, []).
Proof.
  split; [reflexivity|].
  exact (proj2 (decode_latin_remap
                  {| offs := 0x400; auxOffs := 0; is21Bit := false |}
                  0xFF [] eq_refl)).
Defined.

(** ** The cost of a run of one window *)

Lemma geb_true (x y : Z) : y ≤ x → (x >=? y) = true.
Proof. intros. rewrite Z.geb_leb. by apply Z.leb_le. Qed.

Lemma not_latin_above cp : 0x7B ≤ cp → inRanges cp rangesLatin = false.
Proof.
  intros Hcp. unfold inRanges, rangesLatin. cbn [fst snd].
  repeat case_match; try done; lia.
Qed.

Lemma not_extra_below cp : cp < 0x2000 → inRanges cp rangesExtra = false.
Proof.
  intros Hcp. unfold inRanges, rangesExtra, rangeHK. cbn [fst snd].
  repeat case_match; try done; lia.
Qed.


Lemma extra_hk cp : 0x3000 ≤ cp < 0x3100 → inRanges cp rangesExtra = true.
Proof.
  intros Hcp. unfold inRanges, rangesExtra, rangeHK. cbn [fst snd].
  repeat case_match; try done; lia.
Qed.

(** One iteration for a code point of the block: one byte and the state
    kept, or the two bytes of a SHIFT13 or of an EXTRA that opens the
    window; one byte when the window is open. *)
Lemma encode_step_block13 st W cp :
  in_block13 W cp →
  (length (encode_step st cp).1 = 1%nat ∧ (encode_step st cp).2 = st
   ∨ length (encode_step st cp).1 = 2%nat
     ∧ is21Bit (encode_step st cp).2 = false
     ∧ offs (encode_step st cp).2 = W)
  ∧ (is21Bit st = false → offs st = W →
     length (encode_step st cp).1 = 1%nat ∧ (encode_step st cp).2 = st).
Proof.
  intros [[Hcp|Hcp] HW]; unfold encode_step.
  - (* U+0300..U+1FFF: AUX, BASE or SHIFT13 *)
    rewrite not_latin_above, not_extra_below by lia.
    rewrite andb_false_r.
    rewrite (geb_false cp min21BitCp) by (unfold min21BitCp; lia).
    replace (cp <=? maxLatinCp) with false
      by (symmetry; apply Z.leb_gt; unfold maxLatinCp; lia).
    rewrite HW.
    destruct (negb (auxOffs st =? 0) && (cp >=? auxOffs st)
              && (cp <=? auxOffs st + 0x3F)); [by auto|].
    split.
    + destruct (negb (is21Bit st) && (W =? offs st)); cbn; auto.
    + intros -> <-. rewrite Z.eqb_refl. cbn. auto.
  - (* Hiragana/Katakana: AUX, BASE or EXTRA *)
    rewrite not_latin_above, extra_hk by lia.
    rewrite andb_false_r, (proj2 (in_rangeHK cp) Hcp), HW.
    destruct (negb (auxOffs st =? 0) && (cp >=? auxOffs st)
              && (cp <=? auxOffs st + 0x3F)); [by auto|].
    split.
    + destruct (negb (is21Bit st) && (W =? offs st)); cbn; auto.
    + intros -> <-. rewrite Z.eqb_refl. cbn. auto.
Qed.

Lemma encode_step_block21 st W cp :
  in_block21 W cp →
  ((length (encode_step st cp).1 ≤ 2)%nat ∧ (encode_step st cp).2 = st
   ∨ length (encode_step st cp).1 = 3%nat
     ∧ is21Bit (encode_step st cp).2 = true
     ∧ offs (encode_step st cp).2 = W)
  ∧ (is21Bit st = true → offs st = W →
     (length (encode_step st cp).1 ≤ 2)%nat ∧ (encode_step st cp).2 = st).
Proof.
  intros (Hcp & Hex & HW). unfold encode_step. unfold min21BitCp in Hcp.
  rewrite not_latin_above, Hex by lia.
  rewrite andb_false_r.
  rewrite (geb_true cp min21BitCp) by (unfold min21BitCp; lia).
  rewrite HW.
  destruct (negb (auxOffs st =? 0) && (cp >=? auxOffs st)
            && (cp <=? auxOffs st + 0x3F)); [cbn; by auto|].
  split.
  - destruct (is21Bit st && (W =? offs st)); cbn; auto.
  - intros -> <-. rewrite Z.eqb_refl. cbn. auto.
Qed.


Lemma encode_from_window13 st W s :
  is21Bit st = false → offs st = W → Forall (in_block13 W) s →
  length (encode_from st s) = length s.
Proof.
  intros H21 Hoffs. induction 1 as [|cp s Hcp _ IH]; [done|].
  destruct (encode_step_block13 st W cp Hcp) as [_ Hin].
  destruct (Hin H21 Hoffs) as [Hlen Hst].
  rewrite encode_from_cons, length_app, Hlen, Hst, IH. done.
Qed.

(** X15.  A run of code points of U+0300..U+1FFF, or of Hiragana/Katakana
    (U+3000..U+30FF), that share one 13-bit window costs, from any state, at
    most one byte each and one byte more (the SHIFT13 or the EXTRA that
    opens the window); from a state in which the window is open, one byte
    each. *)
Theorem encode_run_block13 (st : State) (W : Z) (s : list Z) :
  Forall (in_block13 W) s →
  (length (encode_from st s) ≤ length s + 1)%nat
  ∧ (is21Bit st = false → offs st = W →
     length (encode_from st s) = length s).
Proof.
  intros Hs. split; [|intros; by apply (encode_from_window13 st W)].
  revert st. induction Hs as [|cp s Hcp Hs IH]; intros st; [cbn; lia|].
  rewrite encode_from_cons, length_app. cbn [length].
  destruct (encode_step_block13 st W cp Hcp) as [[[Hlen Hst]|(Hlen & H21 & Ho)] _].
  - rewrite Hlen, Hst. specialize (IH st). lia.
  - rewrite Hlen, (encode_from_window13 _ W s H21 Ho Hs). lia.
Qed.

(** The Cyrillic word of the documentation, window 0x0400. *)
Lemma encode_run_block13_witness :
  Forall (in_block13 0x400) [0x41F; 0x440; 0x438; 0x432; 0x435; 0x442]
  ∧ (length (Encode [0x41F; 0x440; 0x438; 0x432; 0x435; 0x442]%Z)
     ≤ 6 + 1)%nat.
Proof.
  assert (H : Forall (in_block13 0x400)
                [0x41F; 0x440; 0x438; 0x432; 0x435; 0x442])
    by (repeat (apply Forall_cons_2; [split; [left; lia | reflexivity]|]);
        apply Forall_nil_2).
  split; [exact H|]. exact (proj1 (encode_run_block13 init 0x400 _ H)).
Defined.

Lemma encode_from_window21 st W s :
  is21Bit st = true → offs st = W → Forall (in_block21 W) s →
  (length (encode_from st s) ≤ 2 * length s)%nat.
Proof.
  intros H21 Hoffs. induction 1 as [|cp s Hcp _ IH]; [cbn; lia|].
  destruct (encode_step_block21 st W cp Hcp) as [_ Hin].
  destruct (Hin H21 Hoffs) as [Hlen Hst].
  rewrite encode_from_cons, length_app, Hst. cbn [length]. lia.
Qed.

(** X16.  A run of code points from U+2800 on, outside the extra ranges,
    that share one 21-bit window costs, from any state, at most two bytes
    each and one byte more (the SHIFT21 that opens the window); from a state
    in which the window is open, at most two bytes each. *)
Theorem encode_run_block21 (st : State) (W : Z) (s : list Z) :
  Forall (in_block21 W) s →
  (length (encode_from st s) ≤ 2 * length s + 1)%nat
  ∧ (is21Bit st = true → offs st = W →
     (length (encode_from st s) ≤ 2 * length s)%nat).
Proof.
  intros Hs. split; [|intros; by apply (encode_from_window21 st W)].
  revert st. induction Hs as [|cp s Hcp Hs IH]; intros st; [cbn; lia|].
  rewrite encode_from_cons, length_app. cbn [length].
  destruct (encode_step_block21 st W cp Hcp) as [[[Hlen Hst]|(Hlen & H21 & Ho)] _].
  - rewrite Hst. specialize (IH st). lia.
  - pose proof (encode_from_window21 _ W s H21 Ho Hs). lia.
Qed.

(** Two CJK ideographs, U+4E2D and U+6587, window 0. *)
Lemma encode_run_block21_witness :
  Forall (in_block21 0) [0x4E2D; 0x6587]
  ∧ (length (Encode [0x4E2D; 0x6587]%Z) ≤ 2 * 2 + 1)%nat.
Proof.
  assert (H : Forall (in_block21 0) [0x4E2D; 0x6587]).
  { repeat constructor; first [reflexivity | unfold min21BitCp; lia]. }
  split; [exact H|]. exact (proj1 (encode_run_block21 init 0 _ H)).
Defined.

(** ** The round trip, where it holds and where it fails *)

Lemma roundtrip_safe_example :
  Forall roundtrip_safe [0x41F; 0x440; 0x10000; 0x61; 0xE9; 0x4E2D].
Proof. repeat constructor. Qed.

(** U+041F U+0440 U+10000 "a" U+00E9 U+4E2D. *)
Lemma Decode_Encode_outside_extra_witness :
  Forall roundtrip_safe [0x41F; 0x440; 0x10000; 0x61; 0xE9; 0x4E2D]
  ∧ Decode (Encode [0x41F; 0x440; 0x10000; 0x61; 0xE9; 0x4E2D])
    = Ok [0x41F; 0x440; 0x10000; 0x61; 0xE9; 0x4E2D].
Proof.
  split; [exact roundtrip_safe_example|].
  exact (Decode_Encode_outside_extra _ roundtrip_safe_example).
Defined.

(** X18.  Decoding composes with encoding from any state and before any
    further bytes: the bytes that the loop of [Encode], entered in state
    [st], emits for such a string are decoded, from [st], to the string,
    and the bytes after them are decoded from the state in which [Encode]
    left. *)
Theorem decode_encode_compose (st : State) (s rest : list Z) :
  Forall roundtrip_safe s →
  decode_from st (encode_from st s ++ rest)
  = result_map (app s) (decode_from (encode_state st s) rest)
  ∧ reaches st (encode_from st s ++ rest) (encode_state st s) rest.
Proof.
  intros Hs. split; [by apply decode_encode_from|].
  revert st. induction Hs as [|cp s (Hscalar & Hlt & Hextra) _ IH]; intros st.
  { apply reaches_here. }
  rewrite encode_from_cons, <- app_assoc. cbn [encode_state].
  assert (0 ≤ cp < 0x102800) as Hcp.
  { unfold is_scalar in Hscalar. lia. }
  destruct (decode_encode_step st cp
              (encode_from (encode_step st cp).2 s ++ rest) Hcp Hextra)
    as (b & tl & -> & Hstep).
  eapply reaches_iter; [exact Hstep | apply IH].
Qed.

Lemma decode_encode_compose_witness :
  Forall roundtrip_safe [0x41F; 0x440]
  ∧ decode_from init (encode_from init [0x41F; 0x440] ++ [0xC0])
    = result_map (app [0x41F; 0x440])
        (decode_from (encode_state init [0x41F; 0x440]) [0xC0]).
Proof.
  assert (H : Forall roundtrip_safe [0x41F; 0x440]) by (repeat constructor).
  split; [exact H|].
  exact (proj1 (decode_encode_compose init _ [0xC0] H)).
Defined.

Lemma extra_lead_lxor : ∀ q, 0 ≤ q < 15 →
  (Z.land (byte (Z.lor markerExtra (1 + q))) markerAux =? markerAux) = false
  ∧ (Z.land (byte (Z.lor markerExtra (1 + q))) markerExtra =? markerExtra)
    = true
  ∧ Z.lxor (byte (Z.lor markerExtra (1 + q))) markerExtra = 1 + q.
Proof. by_range 0 15. Qed.

Lemma extra_index_read extra :
  0 ≤ extra →
  Z.lor (Z.shiftl (1 + Z.shiftr extra 8) 8) (byte extra) = extra + 0x100.
Proof.
  intros He. unfold byte.
  rewrite Z.shiftl_mul_pow2, Z.shiftr_div_pow2 by lia.
  rewrite (lor_disjoint _ _ 8) by (change (2 ^ 8) with 256; divmod).
  change (2 ^ 8) with 256. divmod.
Qed.

Lemma inRanges_extra_bound cp :
  inRanges cp rangesExtra = true → 0x2000 ≤ cp.
Proof.
  unfold inRanges, rangesExtra, rangeHK. cbn [fst snd].
  repeat case_match; try done; lia.
Qed.

(** The index that [Decode] reads is never the index of the code point
    itself. *)
Lemma decodeRanges_shifted_ne cp :
  inRanges cp rangesExtra = true →
  decodeRanges (encodeRanges cp rangesExtra + 0x100) rangesExtra ≠ cp.
Proof.
  intros Hin Heq.
  pose proof (encodeRanges_from_hit 0 cp _ rangesExtra_wf Hin) as Hb.
  fold (encodeRanges cp rangesExtra) in Hb.
  pose proof (inRanges_extra_bound cp Hin).
  destruct (Z.lt_ge_cases (encodeRanges cp rangesExtra + 0x100)
                          (ranges_size rangesExtra)) as [Hlt|Hge].
  - pose proof (encodeRanges_from_decodeRanges 0
                  (encodeRanges cp rangesExtra + 0x100) rangesExtra
                  rangesExtra_wf rangesExtra_disjoint ltac:(lia)) as Hinv.
    rewrite Heq in Hinv. fold (encodeRanges cp rangesExtra) in Hinv. lia.
  - destruct (decodeRanges_in_out (encodeRanges cp rangesExtra + 0x100)
                _ rangesExtra_wf) as [_ Hout]; [lia|].
    rewrite (Hout Hge) in Heq. lia.
Qed.


Lemma encode_step_two_extra st cp b1 b2 :
  inRanges cp rangesExtra = true → (encode_step st cp).1 = [b1; b2] →
  b1 = byte (Z.lor markerExtra (1 + Z.shiftr (encodeRanges cp rangesExtra) 8))
  ∧ b2 = byte (encodeRanges cp rangesExtra).
Proof.
  intros Hin. unfold encode_step. rewrite Hin.
  repeat case_match; cbn [fst snd]; intros Hout; try discriminate Hout.
  all: by injection Hout as <- <-.
Qed.

(** X19.  No EXTRA sequence comes back.  For every code point of the extra
    ranges that [Encode] emits as a two-byte sequence, [Decode], in the same
    state, reads the index 0x100 further: it yields the code point of index
    [encodeRanges cp + 0x100], or -1 (U+FFFD) when that is past the ranges,
    and never [cp]. *)
Theorem extra_decodes_shifted (st : State) (cp b1 b2 : Z) (tl : list Z) :
  inRanges cp rangesExtra = true → (encode_step st cp).1 = [b1; b2] →
  ∃ st',
    decode_step st b1 (b2 :: tl)
    = Ok (decodeRanges (encodeRanges cp rangesExtra + 0x100) rangesExtra,
          st', tl)
    ∧ decodeRanges (encodeRanges cp rangesExtra + 0x100) rangesExtra ≠ cp.
Proof.
  intros Hin Hout.
  destruct (encode_step_two_extra st cp b1 b2 Hin Hout) as [-> ->].
  pose proof (encodeRanges_extra_bound cp Hin) as Hb.
  assert (0 ≤ Z.shiftr (encodeRanges cp rangesExtra) 8 < 15) as Hq.
  { rewrite Z.shiftr_div_pow2 by lia. change (2 ^ 8) with 256. divmod. }
  unfold decode_step, decode_iter.
  destruct (extra_lead_lxor _ Hq) as (-> & -> & ->).
  rewrite extra_index_read by lia.
  eexists. split; [reflexivity|]. by apply decodeRanges_shifted_ne.
Qed.

Lemma extra_decodes_shifted_witness :
  inRanges 0x1F600 rangesExtra = true
  ∧ (encode_step init 0x1F600).1 = [0xBD; 0xA0]
  ∧ ∃ st',
      decode_step init 0xBD [0xA0]
      = Ok (decodeRanges (encodeRanges 0x1F600 rangesExtra + 0x100)
                         rangesExtra, st', [])
      ∧ decodeRanges (encodeRanges 0x1F600 rangesExtra + 0x100) rangesExtra
        ≠ 0x1F600.
Proof.
  assert (Hin : inRanges 0x1F600 rangesExtra = true) by reflexivity.
  assert (Hout : (encode_step init 0x1F600).1 = [0xBD; 0xA0])
    by (vm_compute; reflexivity).
  split; [exact Hin|]. split; [exact Hout|].
  exact (extra_decodes_shifted init 0x1F600 0xBD 0xA0 [] Hin Hout).
Defined.

Lemma encode_step_three_bytes st cp b1 b2 b3 :
  (encode_step st cp).1 = [b1; b2; b3] →
  b2 = byte (Z.shiftr (cp - min21BitCp) 8) ∧ b3 = byte (cp - min21BitCp).
Proof.
  unfold encode_step. repeat case_match; cbn [fst snd]; intros Hout;
    try discriminate Hout.
  by injection Hout as _ <- <-.
Qed.


Lemma decode_step_0xB0 st b2 tl :
  0 ≤ b2 < 256 → decode_step st 0xB0 (b2 :: tl) = Ok (0x2000 + b2, st, tl).
Proof.
  intros Hb2. unfold decode_step, decode_iter.
  change (Z.land 0xB0 markerAux =? markerAux) with false.
  change (Z.land 0xB0 markerExtra =? markerExtra) with true.
  change (Z.lxor 0xB0 markerExtra) with 0.
  rewrite Z.shiftl_0_l, Z.lor_0_l. cbn match.
  unfold decodeRanges, rangesExtra, rangeHK. cbn [fst snd].
  replace (b2 <? 0x2800 - 0x2000) with true by (symmetry; apply Z.ltb_lt; lia).
  replace ((0x2000 + b2 >=? 0x3000) && (0x2000 + b2 <? 0x3100)) with false
    by lia.
  reflexivity.
Qed.

(** X20.  No 21-bit switch of the last plane comes back.  For every code
    point of U+102800..U+10FFFF that [Encode] emits as a three-byte
    sequence, the leading byte is 0xB0 and [Decode], in the same state,
    takes it as EXTRA: it yields the code point U+2000 plus the second byte,
    keeps the state, and goes on at the third byte. *)
Theorem shift21_plane16_misread (st : State) (cp b1 b2 b3 : Z) (tl : list Z) :
  0x102800 ≤ cp ≤ 0x10FFFF → (encode_step st cp).1 = [b1; b2; b3] →
  b1 = 0xB0
  ∧ decode_step st b1 (b2 :: b3 :: tl) = Ok (0x2000 + b2, st, b3 :: tl)
  ∧ 0x2000 + b2 ≠ cp.
Proof.
  intros Hcp Hout.
  destruct (encode_step_three st cp b1 b2 b3 Hout) as (_ & Hb1 & _).
  destruct (encode_step_three_bytes st cp b1 b2 b3 Hout) as [Hb2 _].
  destruct (shift21_high_bits cp) as [Hq Hq16]; [unfold min21BitCp; lia|].
  rewrite shift21_lead_byte in Hb1 by done.
  assert (b1 = 0xB0) as -> by (rewrite Hb1, (proj2 Hq16); lia).
  assert (0 ≤ b2 < 256) as Hr by (rewrite Hb2; apply Z.mod_pos_bound; lia).
  split; [done|]. split; [by apply decode_step_0xB0 | lia].
Qed.

Lemma shift21_plane16_misread_witness :
  0x102800 ≤ 0x10FFFD ≤ 0x10FFFF
  ∧ (encode_step init 0x10FFFD).1 = [0xB0; 0xD7; 0xFD]
  ∧ decode_step init 0xB0 [0xD7; 0xFD] = Ok (0x2000 + 0xD7, init, [0xFD]).
Proof.
  assert (Hcp : 0x102800 ≤ 0x10FFFD ≤ 0x10FFFF) by lia.
  assert (Hout : (encode_step init 0x10FFFD).1 = [0xB0; 0xD7; 0xFD])
    by (vm_compute; reflexivity).
  split; [exact Hcp|]. split; [exact Hout|].
  exact (proj1 (proj2 (shift21_plane16_misread init _ _ _ _ [] Hcp Hout))).
Defined.

(** ** What [Decode] consumes and when it fails *)


(** An iteration that does not panic consumes the leading byte and the one
    or two bytes after it that its variant requires. *)
Lemma decode_step_consumes st b tl cp st' rest :
  is_byte b → decode_step st b tl = Ok (cp, st', rest) →
  rest = drop (continuation_bytes st b) tl
  ∧ (continuation_bytes st b ≤ length tl)%nat
  ∧ (continuation_bytes st b ≤ 2)%nat.
Proof.
  intros Hb. destruct (marker_tests b Hb) as (Ha & He & H21 & H13).
  unfold decode_step, decode_iter, continuation_bytes.
  rewrite Ha, He, H21, H13.
  repeat match goal with
         | |- context [?x <=? ?y] => destruct (Z.leb_spec x y)
         end; cbn [andb orb]; try lia;
    destruct (is21Bit st); destruct tl as [|b2 [|b3 tl3]];
    intros Heq; try discriminate Heq; injection Heq as _ _ <-;
    cbn [length drop]; repeat split; lia.
Qed.

Lemma decode_step_length st b tl cp st' rest :
  decode_step st b tl = Ok (cp, st', rest) →
  (length rest ≤ length tl ≤ length rest + 2)%nat.
Proof.
  unfold decode_step, decode_iter.
  repeat case_match; intros Heq; try discriminate Heq;
    injection Heq as _ _ <-; subst; cbn [length]; lia.
Qed.


Lemma reaches_bytes st buf st' rest :
  reaches st buf st' rest → Forall is_byte buf → Forall is_byte rest.
Proof.
  induction 1 as [|st b tl cp st1 rest1 st' rest' Hstep _ IH]; [done|].
  intros Hall. apply Forall_cons_1 in Hall as [Hb Htl]. apply IH.
  destruct (decode_step_consumes _ _ _ _ _ _ Hb Hstep) as (-> & _).
  by apply Forall_drop.
Qed.

Lemma decode_from_panic_reaches n st buf :
  (length buf ≤ n)%nat → Forall is_byte buf →
  decode_from st buf = PanicIndexOutOfRange →
  ∃ st' b tl, reaches st buf st' (b :: tl)
              ∧ (length tl < continuation_bytes st' b)%nat.
Proof.
  revert st buf. induction n as [|n IH]; intros st buf Hlen Hbytes.
  { destruct buf; [done|]. cbn in Hlen. lia. }
  destruct buf as [|b tl]; [done|].
  apply Forall_cons_1 in Hbytes as [Hb Htl]. cbn [length] in Hlen.
  rewrite decode_from_cons.
  destruct (decode_step st b tl) as [[[cp st1] rest1]|] eqn:Hstep.
  - destruct (decode_step_consumes _ _ _ _ _ _ Hb Hstep) as (Hrest & _ & _).
    pose proof (decode_step_length _ _ _ _ _ _ Hstep) as Hl.
    intros Hp.
    destruct (decode_from st1 rest1) as [out|] eqn:Hd; [done|].
    destruct (IH st1 rest1) as (st' & b' & tl' & Hr & Hshort);
      [lia | rewrite Hrest; by apply Forall_drop | done |].
    exists st', b', tl'. split; [|done].
    eapply reaches_iter; done.
  - intros _. exists st, b, tl. split; [apply reaches_here|].
    destruct (Nat.lt_ge_cases (length tl) (continuation_bytes st b))
      as [Hlt|Hge]; [done|].
    exfalso. revert Hstep.
    destruct (marker_tests b Hb) as (Ha & He & H21 & H13).
    revert Hge. unfold decode_step, decode_iter, continuation_bytes.
    rewrite Ha, He, H21, H13.
    repeat match goal with
           | |- context [?x <=? ?y] => destruct (Z.leb_spec x y)
           end; cbn [andb orb]; try lia;
      destruct (is21Bit st); destruct tl as [|b2 [|b3 tl3]];
      cbn [length]; intros Hge Heq; first [lia | discriminate Heq].
Qed.

(** X21.  [Decode] fails on truncated input and on nothing else: on a
    buffer of bytes it ends in the index-out-of-range panic exactly when
    its loop comes to a leading byte followed by fewer bytes than the
    variant requires; on every other buffer it returns a string. *)
Theorem Decode_panic_iff (buf : list Z) :
  Forall is_byte buf →
  (Decode buf = PanicIndexOutOfRange ↔
   ∃ st b tl, reaches init buf st (b :: tl)
              ∧ (length tl < continuation_bytes st b)%nat)
  ∧ (Decode buf ≠ PanicIndexOutOfRange → ∃ s, Decode buf = Ok s).
Proof.
  intros Hbytes. split; [split|].
  - by apply (decode_from_panic_reaches (length buf)).
  - intros (st & b & tl & Hr & Hshort).
    pose proof (reaches_bytes _ _ _ _ Hr Hbytes) as Hrest.
    apply Forall_cons_1 in Hrest as [Hb _].
    eapply reaches_panic; [exact Hr|].
    by rewrite decode_from_cons, decode_step_truncated.
  - intros Hne. destruct (Decode buf) as [s|]; [by exists s | done].
Qed.

Lemma Decode_panic_iff_witness :
  Forall is_byte [0x84; 0x1F; 0xA0; 0xD8]
  ∧ (Decode [0x84; 0x1F; 0xA0; 0xD8] = PanicIndexOutOfRange ↔
     ∃ st b tl, reaches init [0x84; 0x1F; 0xA0; 0xD8] st (b :: tl)
                ∧ (length tl < continuation_bytes st b)%nat).
Proof.
  assert (H : Forall is_byte [0x84; 0x1F; 0xA0; 0xD8])
    by (repeat constructor; unfold is_byte; lia).
  split; [exact H|]. exact (proj1 (Decode_panic_iff _ H)).
Defined.

Lemma decode_from_length n st buf s :
  (length buf ≤ n)%nat → decode_from st buf = Ok s →
  (length s ≤ length buf ≤ 3 * length s)%nat.
Proof.
  revert st buf s. induction n as [|n IH]; intros st buf s Hlen.
  { destruct buf; [|cbn in Hlen; lia]. intros [= <-]. cbn. lia. }
  destruct buf as [|b tl]; [intros [= <-]; cbn; lia|].
  cbn [length] in Hlen. rewrite decode_from_cons.
  destruct (decode_step st b tl) as [[[cp st1] rest1]|] eqn:Hstep; [|done].
  pose proof (decode_step_length _ _ _ _ _ _ Hstep) as Hl.
  destruct (decode_from st1 rest1) as [out|] eqn:Hd; [|done].
  intros [= <-]. specialize (IH st1 rest1 out ltac:(lia) Hd).
  cbn [length]. lia.
Qed.

(** X22.  When [Decode] returns, the string has at most one code point per
    byte of the buffer and at least one per three bytes; the empty buffer
    gives the empty string. *)
Theorem Decode_length_bounds (buf s : list Z) :
  Decode buf = Ok s →
  (length s ≤ length buf ≤ 3 * length s)%nat ∧ (buf = [] ↔ s = []).
Proof.
  intros Hd.
  pose proof (decode_from_length (length buf) init buf s (le_n _) Hd) as Hl.
  split; [exact Hl|]. split.
  - intros ->. destruct s; [done|]. cbn in Hl. lia.
  - intros ->. destruct buf; [done|]. cbn in Hl. lia.
Qed.

Lemma Decode_length_bounds_witness :
  Decode [0x84; 0x1F; 0x40; 0xA0; 0xD8; 0x00] = Ok [0x41F; 0x440; 0x10000]
  ∧ (length [0x41F; 0x440; 0x10000]%Z
     ≤ length [0x84; 0x1F; 0x40; 0xA0; 0xD8; 0x00]%Z
     ≤ 3 * length [0x41F; 0x440; 0x10000]%Z)%nat.
Proof.
  assert (H : Decode [0x84; 0x1F; 0x40; 0xA0; 0xD8; 0x00]
              = Ok [0x41F; 0x440; 0x10000]) by (vm_compute; reflexivity).
  split; [exact H|]. exact (proj1 (Decode_length_bounds _ _ H)).
Defined.
